(** * Bitap: a shallow embedding of the bit-parallel matcher of heyimalex/bitap

    The development follows the Rust sources:
    - [src/src/lib.rs]: pattern compilation ([UnicodePattern::new],
      [AsciiPattern::new]), the three mask iterators and the three engines
      [BitapFind], [BitapLevenshtein], [BitapDamerauLevenshtein];
    - [src/src/reference.rs]: [bitap_reference] and its wrappers;
    - [src/bitap-reference/src/lib.rs] and [baseline.rs]: the crate
      [bitap_reference] ([reference], [lev], [osa]) and the brute-force
      [baseline].

    Machine words are [usize] on a 64-bit target: values of [Z] in
    [0, 2^64), with the wrap-around of [<<] written out.  A Rust [char] is
    its code point (a [Z]); a [&str] is its sequence of chars, and its bytes
    are the UTF-8 encoding of that sequence.  A Rust panic of a debug
    build (index out of bounds, shift overflow, [usize] overflow or
    underflow, capacity overflow of [vec!]) is [None] in the [option]
    results of the code that can panic. *)

From stdpp Require Import base gmap list.
From Stdlib Require Import ZArith Lia Sorted.

Open Scope Z_scope.

(** ** Machine words *)

(** [mem::size_of::<usize>() * 8] *)
Definition W : nat := 64.

(** [!0usize] *)
Definition ones : Z := Z.ones (Z.of_nat W).

(** [!x] on a word *)
Definition wnot (x : Z) : Z := Z.lxor x ones.

(** [x << n] on a word, for [n < W] (the bits shifted out are lost) *)
Definition wshl (x : Z) (n : nat) : Z := Z.land (Z.shiftl x (Z.of_nat n)) ones.

(** [x << n] with the overflow check of a debug build: shifting by [W]
    or more panics *)
Definition shl_checked (x : Z) (n : nat) : option Z :=
  if (n <? W)%nat then Some (wshl x n) else None.

(** [0 == (x & (1usize << n))], i.e. bit [n] of [x] is clear. This is
    the source for [n < W] only: there the shift cannot overflow. Every
    engine is given [n < W] by its callers ([W - 2] at most from a
    [Searcher], [W - 1] at most in [src/src/reference.rs]) and every
    theorem below keeps to [n < W]; beyond, [1usize << n] panics in a
    debug build, which this definition does not model. *)
Definition bit_clear (x : Z) (n : nat) : bool := Z.land x (wshl 1 n) =? 0.

(** ** Strings *)

(** The UTF-8 encoding of one char, as [str::bytes] yields it *)
Definition utf8_encode (c : Z) : list Z :=
  if c <? 128 then [c]
  else if c <? 2048 then [192 + c / 64; 128 + c mod 64]
  else if c <? 65536 then [224 + c / 4096; 128 + (c / 64) mod 64; 128 + c mod 64]
  else [240 + c / 262144; 128 + (c / 4096) mod 64; 128 + (c / 64) mod 64;
        128 + c mod 64].

(** [text.bytes()] *)
Definition str_bytes (t : list Z) : list Z := t ≫= utf8_encode.

(** [u8::is_ascii] and [char::is_ascii] *)
Definition is_ascii (c : Z) : bool := (0 <=? c) && (c <? 128).

(** [str::is_ascii]: every byte is ASCII *)
Definition str_is_ascii (t : list Z) : bool := forallb is_ascii (str_bytes t).

(** A [char] is a Unicode scalar value *)
Definition valid_char (c : Z) : Prop := 0 <= c < 1114112.

(** ** Compiled patterns *)

(** The error strings of [UnicodePattern::new] and [AsciiPattern::new] *)
Inductive pattern_error :=
| EmptyPattern       (* "pattern must not be empty" *)
| InvalidLength      (* "invalid pattern length" *)
| NotAscii           (* "pattern must be all ascii characters" *)
| InvalidPattern.    (* "invalid pattern", crate [bitap_reference] *)

(** A [Result<T, &'static str>] of code that may also panic *)
Inductive outcome (A : Type) :=
| Ok (a : A)
| Err (e : pattern_error)
| Panic.
Arguments Ok {A} a.
Arguments Err {A} e.
Arguments Panic {A}.

Record UnicodePattern := {
  u_length : nat;
  u_masks : gmap Z Z
}.

(** The loop of [UnicodePattern::new] over [pattern.chars().enumerate()],
    from index [i]; [1usize << i] panics once [i >= W] *)
Fixpoint unicode_masks_from (i : nat) (p : list Z) (masks : gmap Z Z)
    : option (gmap Z Z) :=
  match p with
  | [] => Some masks
  | c :: p' =>
      match shl_checked 1 i with
      | None => None
      | Some b =>
          let masks' :=
            match masks !! c with
            | Some mask => <[c := Z.land mask (wnot b)]> masks
            | None => <[c := Z.land ones (wnot b)]> masks
            end in
          unicode_masks_from (S i) p' masks'
      end
  end.

(** [UnicodePattern::new]: the masks are built before the length checks *)
Definition UnicodePattern_new (p : list Z) : outcome UnicodePattern :=
  match unicode_masks_from 0 p ∅ with
  | None => Panic
  | Some masks =>
      let length := length p in
      if (length =? 0)%nat then Err EmptyPattern
      else if (W - 1 <=? length)%nat then Err InvalidLength
      else Ok {| u_length := length; u_masks := masks |}
  end.

Record AsciiPattern := {
  a_length : nat;
  a_masks : list Z      (* [[usize; 256]] *)
}.

(** The loop of [AsciiPattern::new_unchecked] over [pattern.bytes()]:
    [m.masks[b as usize] &= !(1usize << i)], panicking out of range *)
Fixpoint ascii_masks_from (i : nat) (bs : list Z) (masks : list Z)
    : option (list Z) :=
  match bs with
  | [] => Some masks
  | b :: bs' =>
      match masks !! Z.to_nat b with
      | None => None
      | Some m => ascii_masks_from (S i) bs' (<[Z.to_nat b := Z.land m (wnot (wshl 1 i))]> masks)
      end
  end.

(** [AsciiPattern::new_unchecked] *)
Definition AsciiPattern_new_unchecked (p : list Z) : option AsciiPattern :=
  match ascii_masks_from 0 (str_bytes p) (replicate 256 ones) with
  | None => None
  | Some masks => Some {| a_length := length (str_bytes p); a_masks := masks |}
  end.

(** [AsciiPattern::new]: [pattern.len()] is the byte length *)
Definition AsciiPattern_new (p : list Z) : outcome AsciiPattern :=
  let len := length (str_bytes p) in
  if (len =? 0)%nat then Err EmptyPattern
  else if (W - 1 <=? len)%nat then Err InvalidLength
  else if negb (str_is_ascii p) then Err NotAscii
  else match AsciiPattern_new_unchecked p with
       | None => Panic
       | Some ap => Ok ap
       end.

(** [pattern_length_is_valid] of the crate [bitap_reference] *)
Definition pattern_length_is_valid (n : nat) : bool := (0 <? n)%nat && (n <? W)%nat.

(** ** Mask sources *)

(** [UnicodeMaskIterator]: a hash lookup per char, [!0] when absent *)
Definition unicode_mask (up : UnicodePattern) (c : Z) : Z :=
  match u_masks up !! c with
  | Some m => m
  | None => ones
  end.

Definition unicode_mask_iter (up : UnicodePattern) (t : list Z) : list Z :=
  map (unicode_mask up) t.

(** [AsciiMaskIterator]: [!0] for a non-ASCII char, else the array entry
    at [c as u8] *)
Definition ascii_mask (ap : AsciiPattern) (c : Z) : option Z :=
  if negb (is_ascii c) then Some ones
  else a_masks ap !! Z.to_nat (c mod 256).

Definition ascii_mask_iter (ap : AsciiPattern) (t : list Z) : option (list Z) :=
  mapM (ascii_mask ap) t.

(** [AsciiOnlyMaskIterator]: the array entry of every byte of the text *)
Definition ascii_only_mask_iter (ap : AsciiPattern) (t : list Z) : option (list Z) :=
  mapM (fun b => a_masks ap !! Z.to_nat b) (str_bytes t).

(** ** Iterators *)

(** Rust's [Iterator] trait, with the panics of [next] made explicit:
    [None] is a panic, [Some None] the end of the iteration.
    [iter_bound] bounds the number of items left (the length of the
    underlying enumerated mask sequence). *)
Class Iterator (St Item : Type) := {
  iter_next : St -> option (option (Item * St));
  iter_bound : St -> nat
}.

Fixpoint collect_fuel {St Item} `{Iterator St Item} (fuel : nat) (s : St)
    : option (list Item) :=
  match fuel with
  | O => Some []
  | S f =>
      match iter_next s with
      | None => None
      | Some None => Some []
      | Some (Some (x, s')) => cons x <$> collect_fuel f s'
      end
  end.

(** [Iterator::collect::<Vec<_>>()] *)
Definition collect {St Item} `{Iterator St Item} (s : St) : option (list Item) :=
  collect_fuel (S (iter_bound s)) s.

(** [Iterator::enumerate] *)
Fixpoint enumerate_from {A} (n : nat) (l : list A) : list (nat * A) :=
  match l with
  | [] => []
  | x :: l' => (n, x) :: enumerate_from (S n) l'
  end.

Definition enumerate {A} (l : list A) : list (nat * A) := enumerate_from 0 l.

(** [a - b] on [usize], which panics on underflow in a debug build *)
Definition usize_sub (a b : nat) : option nat :=
  if (b <=? a)%nat then Some (a - b)%nat else None.

(** [usize::MAX] and [isize::MAX] *)
Definition usize_max : Z := 2 ^ Z.of_nat W - 1.
Definition isize_max : Z := 2 ^ (Z.of_nat W - 1) - 1.

(** [a + b] on [usize], which panics on overflow in a debug build; the
    comparison is done on [Z] *)
Definition usize_add (a b : nat) : option nat :=
  if (Z.of_nat a + Z.of_nat b <=? usize_max)%Z then Some (a + b)%nat else None.

(** [vec![x; n]] of [usize] words: the allocation of [n] words of 8 bytes
    panics with "capacity overflow" when its size exceeds [isize::MAX]
    bytes; an allocation of a smaller size is taken to succeed (a failing
    allocator aborts the process, which is not modelled). *)
Definition vec_from_elem (x : Z) (n : nat) : option (list Z) :=
  if (8 * Z.of_nat n <=? isize_max)%Z then Some (replicate n x) else None.

(** ** The exact-match engine [BitapFind] *)

Record BitapFind := {
  f_iter : list (nat * Z);
  f_pattern_length : nat;
  f_r : Z
}.

Definition BitapFind_new (mask_iter : list Z) (pattern_length : nat) : BitapFind :=
  {| f_iter := enumerate mask_iter; f_pattern_length := pattern_length;
     f_r := wnot 1 |}.

(** One step of the state: [r |= mask; r <<= 1] *)
Definition find_step (r mask : Z) : Z := wshl (Z.lor r mask) 1.

(** The [for (i, mask) in self.iter.by_ref()] loop of [BitapFind::next] *)
Fixpoint find_loop (len : nat) (r : Z) (it : list (nat * Z))
    : option (option (nat * BitapFind)) :=
  match it with
  | [] => Some None
  | (i, mask) :: it' =>
      let r' := find_step r mask in
      if bit_clear r' len then
        match usize_sub (i + 1) len with
        | None => None
        | Some start =>
            Some (Some (start, {| f_iter := it'; f_pattern_length := len; f_r := r' |}))
        end
      else find_loop len r' it'
  end.

#[global] Instance BitapFind_iter : Iterator BitapFind nat := {
  iter_next s := find_loop (f_pattern_length s) (f_r s) (f_iter s);
  iter_bound s := length (f_iter s)
}.

(** ** The Levenshtein engine [BitapLevenshtein] *)

Record Match := {
  distance : nat;
  end_ : nat
}.

Record BitapLevenshtein := {
  l_iter : list (nat * Z);
  l_pattern_length : nat;
  l_r : list Z
}.

(** [BitapLevenshtein::new]: [vec![!1usize; max_distance + 1]], where
    the addition and the allocation can panic *)
Definition BitapLevenshtein_new (mask_iter : list Z) (pattern_length max_distance : nat)
    : option BitapLevenshtein :=
  n ← usize_add max_distance 1;
  r ← vec_from_elem (wnot 1) n;
  Some {| l_iter := enumerate mask_iter; l_pattern_length := pattern_length; l_r := r |}.

(** The inner loop [for j in 1..self.r.len()] over the rows [r[j..]];
    [prev_parent] is the old [r[j-1]], [prev_new] the updated [r[j-1]] *)
Fixpoint lev_rows (mask prev_parent prev_new : Z) (rs : list Z) : list Z :=
  match rs with
  | [] => []
  | prev :: rs' =>
      let current := wshl (Z.lor prev mask) 1 in
      let replace := wshl prev_parent 1 in
      let delete := wshl prev_new 1 in
      let insert := prev_parent in
      let v := Z.land (Z.land (Z.land current insert) delete) replace in
      v :: lev_rows mask prev v rs'
  end.

(** The update of all rows for one mask; [self.r[0]] panics on no rows *)
Definition lev_step (mask : Z) (r : list Z) : option (list Z) :=
  match r with
  | [] => None
  | r0 :: rs =>
      let r0' := wshl (Z.lor r0 mask) 1 in
      Some (r0' :: lev_rows mask r0 r0' rs)
  end.

(** [for (k, rv) in self.r.iter().enumerate()]: the first row with bit
    [pattern_length] clear *)
Fixpoint scan_rows (len k : nat) (rs : list Z) : option nat :=
  match rs with
  | [] => None
  | rv :: rs' => if bit_clear rv len then Some k else scan_rows len (S k) rs'
  end.

Fixpoint lev_loop (len : nat) (r : list Z) (it : list (nat * Z))
    : option (option (Match * BitapLevenshtein)) :=
  match it with
  | [] => Some None
  | (i, mask) :: it' =>
      match lev_step mask r with
      | None => None
      | Some r' =>
          match scan_rows len 0 r' with
          | Some k =>
              Some (Some ({| distance := k; end_ := i |},
                          {| l_iter := it'; l_pattern_length := len; l_r := r' |}))
          | None => lev_loop len r' it'
          end
      end
  end.

#[global] Instance BitapLevenshtein_iter : Iterator BitapLevenshtein Match := {
  iter_next s := lev_loop (l_pattern_length s) (l_r s) (l_iter s);
  iter_bound s := length (l_iter s)
}.

(** ** The OSA engine [BitapDamerauLevenshtein] *)

Record BitapDamerauLevenshtein := {
  d_iter : list (nat * Z);
  d_pattern_length : nat;
  d_r : list Z;
  d_trans : list Z
}.

(** [BitapDamerauLevenshtein::new]: the fields in the order written,
    [r] ([vec![!1usize; max_distance + 1]]) before [trans]
    ([vec![!1usize; max_distance]]) *)
Definition BitapDamerauLevenshtein_new (mask_iter : list Z)
    (pattern_length max_distance : nat) : option BitapDamerauLevenshtein :=
  n ← usize_add max_distance 1;
  r ← vec_from_elem (wnot 1) n;
  trans ← vec_from_elem (wnot 1) max_distance;
  Some {| d_iter := enumerate mask_iter; d_pattern_length := pattern_length;
          d_r := r; d_trans := trans |}.

(** The inner loop of [BitapDamerauLevenshtein::next] over [r[j..]] and
    [trans[j-1..]]; [self.trans[j - 1]] panics out of range *)
Fixpoint osa_rows (mask prev_parent prev_new : Z) (rs ts : list Z)
    : option (list Z * list Z) :=
  match rs with
  | [] => Some ([], ts)
  | prev :: rs' =>
      match ts with
      | [] => None
      | t :: ts' =>
          let current := wshl (Z.lor prev mask) 1 in
          let replace := wshl prev_parent 1 in
          let delete := wshl prev_new 1 in
          let insert := prev_parent in
          let transpose := wshl (Z.lor t (wshl mask 1)) 1 in
          let v := Z.land (Z.land (Z.land (Z.land current insert) delete) replace)
                     transpose in
          let t' := Z.lor (wshl prev_parent 1) mask in
          match osa_rows mask prev v rs' ts' with
          | None => None
          | Some (rs'', ts'') => Some (v :: rs'', t' :: ts'')
          end
      end
  end.

Definition osa_step (mask : Z) (r trans : list Z) : option (list Z * list Z) :=
  match r with
  | [] => None
  | r0 :: rs =>
      let r0' := wshl (Z.lor r0 mask) 1 in
      match osa_rows mask r0 r0' rs trans with
      | None => None
      | Some (rs', trans') => Some (r0' :: rs', trans')
      end
  end.

Fixpoint osa_loop (len : nat) (r trans : list Z) (it : list (nat * Z))
    : option (option (Match * BitapDamerauLevenshtein)) :=
  match it with
  | [] => Some None
  | (i, mask) :: it' =>
      match osa_step mask r trans with
      | None => None
      | Some (r', trans') =>
          match scan_rows len 0 r' with
          | Some k =>
              Some (Some ({| distance := k; end_ := i |},
                          {| d_iter := it'; d_pattern_length := len; d_r := r';
                             d_trans := trans' |}))
          | None => osa_loop len r' trans' it'
          end
      end
  end.

#[global] Instance BitapDamerauLevenshtein_iter
    : Iterator BitapDamerauLevenshtein Match := {
  iter_next s := osa_loop (d_pattern_length s) (d_r s) (d_trans s) (d_iter s);
  iter_bound s := length (d_iter s)
}.

(** ** The [Searcher] methods, for a [UnicodePattern] *)

Definition find_iter (up : UnicodePattern) (t : list Z) : option (list nat) :=
  collect (BitapFind_new (unicode_mask_iter up t) (u_length up)).

Definition find_levenshtein_iter (up : UnicodePattern) (t : list Z) (k : nat)
    : option (list Match) :=
  s ← BitapLevenshtein_new (unicode_mask_iter up t) (u_length up) k; collect s.

Definition find_damerau_levenshtein_iter (up : UnicodePattern) (t : list Z) (k : nat)
    : option (list Match) :=
  s ← BitapDamerauLevenshtein_new (unicode_mask_iter up t) (u_length up) k; collect s.

(** ** The reference engine of [src/src/reference.rs] *)

(** The inner loop [for j in 1..=max_edit_distance] of [bitap_reference],
    run [n] times from index [j], with the indexing of [r] and [trans] as
    written: [r[j]], [r[j - 1]] and [trans[j - 1]] panic out of range.
    [transpose] is computed on every iteration; it is only used when
    [allow_transpositions]. *)
Fixpoint ref_inner (n j : nat) (allow : bool) (letter_mask prev_parent : Z)
    (r trans : list Z) : option (list Z * list Z) :=
  match n with
  | O => Some (r, trans)
  | S n' =>
      prev ← r !! j;
      let current := wshl (Z.lor prev letter_mask) 1 in
      let replace := wshl prev_parent 1 in
      rj1 ← r !! (j - 1)%nat;
      let delete := wshl rj1 1 in
      let insert := prev_parent in
      tj1 ← trans !! (j - 1)%nat;
      let transpose := wshl (Z.lor tj1 (wshl letter_mask 1)) 1 in
      let v0 := Z.land (Z.land (Z.land current insert) delete) replace in
      let v := if allow then Z.land v0 transpose else v0 in
      let r' := <[j := v]> r in
      let trans' := <[(j - 1)%nat := Z.lor (wshl prev_parent 1) letter_mask]> trans in
      ref_inner n' (S j) allow letter_mask prev r' trans'
  end.

(** The closure given to [filter_map], for the char [c] *)
Definition ref_step (k : nat) (allow : bool) (masks : gmap Z Z) (r trans : list Z)
    (c : Z) : option (list Z * list Z) :=
  let letter_mask := match masks !! c with Some m => m | None => ones end in
  r0 ← r !! 0%nat;
  let r' := <[0%nat := wshl (Z.lor r0 letter_mask) 1]> r in
  ref_inner k 1 allow letter_mask r0 r' trans.

(** Collecting [text.chars().enumerate().filter_map(..)] *)
Fixpoint ref_run (m k : nat) (allow : bool) (masks : gmap Z Z) (r trans : list Z)
    (it : list (nat * Z)) : option (list Match) :=
  match it with
  | [] => Some []
  | (i, c) :: it' =>
      '(r', trans') ← ref_step k allow masks r trans c;
      rest ← ref_run m k allow masks r' trans' it';
      Some (match scan_rows m 0 r' with
            | Some d => {| distance := d; end_ := i |} :: rest
            | None => rest
            end)
  end.

(** [bitap_reference(text, pattern, max_edit_distance, allow_transpositions)],
    collected; [r] is [vec![!1usize; max_edit_distance + 1]], where the
    addition and the allocation can panic, and [trans] is
    [vec![!1usize, max_edit_distance]] as written: the two words [!1] and
    [max_edit_distance] *)
Definition bitap_reference (text pattern : list Z) (max_edit_distance : nat)
    (allow : bool) : option (list Match) :=
  let m := length pattern in
  if (m =? 0)%nat then None
  else if (W - 1 <? m)%nat then None
  else
    masks ← unicode_masks_from 0 pattern ∅;
    n ← usize_add max_edit_distance 1;
    r ← vec_from_elem (wnot 1) n;
    ref_run m max_edit_distance allow masks r
      [wnot 1; Z.of_nat max_edit_distance] (enumerate text).

(** [reference::find] *)
Definition ref_find (pattern text : list Z) : option (list nat) :=
  let m := length pattern in
  ms ← bitap_reference text pattern 0 false;
  mapM (fun mt => usize_sub (end_ mt + 1) m) ms.

(** [reference::levenshtein] *)
Definition ref_levenshtein (pattern text : list Z) (k : nat) : option (list Match) :=
  bitap_reference text pattern k false.

(** [reference::damerau_levenshtein] *)
Definition ref_damerau_levenshtein (pattern text : list Z) (k : nat)
    : option (list Match) :=
  bitap_reference text pattern k true.

(** ** The crate [bitap_reference] *)

(** [reference(pattern, text, max_distance, allow_transpositions, false)].
    Row [i] starts as [!1usize << i]; [max_distance] is clamped to the
    pattern length.  [r] has [max_distance + 1] rows and [trans]
    [max_distance] words, so the indices [j] and [j - 1] of the inner loop
    are in range and the loop is the row recursion [lev_rows] (without
    transpositions) or [osa_rows] (with them, where [trans[j - 1]] is also
    updated). *)
Fixpoint crate_run (len : nat) (allow : bool) (r trans : list Z)
    (it : list (nat * Z)) : option (list Match) :=
  match it with
  | [] => Some []
  | (i, letter_mask) :: it' =>
      match (if allow then osa_step letter_mask r trans
             else (fun r' => (r', trans)) <$> lev_step letter_mask r) with
      | None => None
      | Some (r', trans') =>
          rest ← crate_run len allow r' trans' it';
          Some (match scan_rows len 0 r' with
                | Some k => {| distance := k; end_ := i |} :: rest
                | None => rest
                end)
      end
  end.

Definition reference (pattern text : list Z) (max_distance : nat) (allow : bool)
    : outcome (list Match) :=
  let pattern_len := length pattern in
  if negb (pattern_length_is_valid pattern_len) then Err InvalidPattern
  else
    let max_distance := Nat.min max_distance pattern_len in
    match unicode_masks_from 0 pattern ∅ with
    | None => Panic
    | Some masks =>
        let letter_mask c := match masks !! c with Some m => m | None => ones end in
        match crate_run pattern_len allow
                (map (fun i => wshl (wnot 1) i) (seq 0 (max_distance + 1)))
                (replicate max_distance (wnot 1))
                (enumerate (map letter_mask text)) with
        | None => Panic
        | Some ms => Ok ms
        end
    end.

Definition crate_lev (pattern text : list Z) (k : nat) : outcome (list Match) :=
  reference pattern text k false.

Definition crate_osa (pattern text : list Z) (k : nat) : outcome (list Match) :=
  reference pattern text k true.

(** ** The brute-force engine [baseline] *)

(** [strsim::levenshtein] (an external crate): the textbook dynamic
    programme, one row of the table per char of [a]; [lev_row] computes
    the row of [ca] from the row above it, [diag] and [left] being the
    entries of column 0 *)
Fixpoint lev_row (ca : Z) (b : list Z) (up : list nat) (diag left : nat) : list nat :=
  match b, up with
  | cb :: b', u :: up' =>
      let v := Nat.min (Nat.min (u + 1) (left + 1))
                 (diag + (if Z.eqb ca cb then 0 else 1))%nat in
      v :: lev_row ca b' up' u v
  | _, _ => []
  end.

Fixpoint lev_table (a b : list Z) (i : nat) (row : list nat) : list nat :=
  match a with
  | [] => row
  | ca :: a' => lev_table a' b (S i) (lev_row ca b row i (S i))
  end.

Definition levenshtein (a b : list Z) : nat :=
  default (length a) (last (lev_table a b 0 (seq 1 (length b)))).

(** [text_chars[j..=i]] *)
Definition sub_text (t : list Z) (j i : nat) : list Z := take (i - j + 1) (drop j t).

(** The loop [for j in start..=i] with its early exit at distance 0 *)
Fixpoint best_from (p t : list Z) (i : nat) (js : list nat) (best : nat) : nat :=
  match js with
  | [] => best
  | j :: js' =>
      let d := levenshtein p (sub_text t j i) in
      let best' := if (d <? best)%nat then d else best in
      if (best' =? 0)%nat then best' else best_from p t i js' best'
  end.

(** [baseline(pattern, text, max_distance, DistanceFn::Levenshtein)] *)
Definition baseline_lev (p t : list Z) (max_distance : nat) : outcome (list Match) :=
  let pattern_len := length p in
  if negb (pattern_length_is_valid pattern_len) then Err InvalidPattern
  else
    let max_distance := Nat.min max_distance pattern_len in
    Ok (omap (fun i =>
          let max_diff := (max_distance + pattern_len)%nat in
          let start := if (max_diff <? i)%nat then (i - max_diff)%nat else 0%nat in
          let best := best_from p t i (seq start (i - start + 1)) (max_distance + 1) in
          if (best <=? max_distance)%nat then Some {| distance := best; end_ := i |}
          else None)
        (seq 0 (length t))).

(** ** Further entry points *)

(** [Iterator::next] on a fresh iterator: its first item *)
Definition iter_first {St Item} `{Iterator St Item} (s : St) : option (option Item) :=
  match iter_next s with
  | None => None
  | Some None => Some None
  | Some (Some (x, _)) => Some (Some x)
  end.

(** [Searcher::find], [Searcher::find_levenshtein] and
    [Searcher::find_damerau_levenshtein] of a [UnicodePattern]:
    [self.find_iter(text).next()] and the like *)
Definition searcher_find (up : UnicodePattern) (t : list Z) : option (option nat) :=
  iter_first (BitapFind_new (unicode_mask_iter up t) (u_length up)).

Definition searcher_find_levenshtein (up : UnicodePattern) (t : list Z) (k : nat)
    : option (option Match) :=
  s ← BitapLevenshtein_new (unicode_mask_iter up t) (u_length up) k; iter_first s.

Definition searcher_find_damerau_levenshtein (up : UnicodePattern) (t : list Z) (k : nat)
    : option (option Match) :=
  s ← BitapDamerauLevenshtein_new (unicode_mask_iter up t) (u_length up) k; iter_first s.

(** The [Searcher] methods of an [AsciiPattern] ([len] is [self.length], the
    masks come from [AsciiMaskIterator]) and of an [AsciiOnlyPattern] (the
    wrapped [AsciiPattern], masks from [AsciiOnlyMaskIterator]).  The mask
    sequence is computed before the engine runs; on a compiled pattern no
    mask lookup fails, so this is the same as the lazy composition. *)
Definition ascii_find_iter (ap : AsciiPattern) (t : list Z) : option (list nat) :=
  ms ← ascii_mask_iter ap t; collect (BitapFind_new ms (a_length ap)).

Definition ascii_find_levenshtein_iter (ap : AsciiPattern) (t : list Z) (k : nat)
    : option (list Match) :=
  ms ← ascii_mask_iter ap t; s ← BitapLevenshtein_new ms (a_length ap) k; collect s.

Definition ascii_find_damerau_levenshtein_iter (ap : AsciiPattern) (t : list Z) (k : nat)
    : option (list Match) :=
  ms ← ascii_mask_iter ap t; s ← BitapDamerauLevenshtein_new ms (a_length ap) k; collect s.

Definition ascii_only_find_iter (ap : AsciiPattern) (t : list Z) : option (list nat) :=
  ms ← ascii_only_mask_iter ap t; collect (BitapFind_new ms (a_length ap)).

Definition ascii_only_find_levenshtein_iter (ap : AsciiPattern) (t : list Z) (k : nat)
    : option (list Match) :=
  ms ← ascii_only_mask_iter ap t; s ← BitapLevenshtein_new ms (a_length ap) k; collect s.

Definition ascii_only_find_damerau_levenshtein_iter (ap : AsciiPattern) (t : list Z) (k : nat)
    : option (list Match) :=
  ms ← ascii_only_mask_iter ap t; s ← BitapDamerauLevenshtein_new ms (a_length ap) k; collect s.

(** [bitap_reference::find]: [reference(pattern, text, 0, false, false)],
    each match mapped to [m.end - offset] with
    [offset = pattern.chars().count() - 1] *)
Definition crate_find (pattern text : list Z) : outcome (list nat) :=
  match reference pattern text 0 false with
  | Ok v =>
      match usize_sub (length pattern) 1 with
      | None => Panic
      | Some offset =>
          match mapM (fun mt => usize_sub (end_ mt) offset) v with
          | Some l => Ok l
          | None => Panic
          end
      end
  | Err e => Err e
  | Panic => Panic
  end.

(** [reference::BitapFast] of [src/src/reference.rs] *)
Record BitapFast := {
  fast_pattern_length : nat;
  fast_masks : list Z      (* [[usize; 256]] *)
}.

(** [BitapFast::new]: [None] is one of its [panic!]s.  The mask loop is the
    one of [AsciiPattern::new_unchecked]; [get_unchecked_mut] out of range
    (which a byte index never is) is [None] too. *)
Definition BitapFast_new (p : list Z) : option BitapFast :=
  if negb (str_is_ascii p) then None
  else
    let m := length (str_bytes p) in
    if (m =? 0)%nat then None
    else if (W - 1 <? m)%nat then None
    else
      masks ← ascii_masks_from 0 (str_bytes p) (replicate 256 ones);
      Some {| fast_pattern_length := m; fast_masks := masks |}.

(** The closure of [BitapFast::find_iter] over [text.bytes().enumerate()],
    collected *)
Fixpoint fast_loop (bf : BitapFast) (r : Z) (it : list (nat * Z)) : option (list nat) :=
  match it with
  | [] => Some []
  | (i, b) :: it' =>
      match fast_masks bf !! Z.to_nat b with
      | None => None
      | Some mk =>
          let r' := wshl (Z.lor r mk) 1 in
          if bit_clear r' (fast_pattern_length bf) then
            match usize_sub (i + 1) (fast_pattern_length bf) with
            | None => None
            | Some start => cons start <$> fast_loop bf r' it'
            end
          else fast_loop bf r' it'
      end
  end.

Definition fast_find_iter (bf : BitapFast) (t : list Z) : option (list nat) :=
  fast_loop bf (wnot 1) (enumerate (str_bytes t)).

(** The loop of [BitapFast::find], which returns at the first match *)
Fixpoint fast_find_loop (bf : BitapFast) (r : Z) (it : list (nat * Z))
    : option (option nat) :=
  match it with
  | [] => Some None
  | (i, b) :: it' =>
      match fast_masks bf !! Z.to_nat b with
      | None => None
      | Some mk =>
          let r' := wshl (Z.lor r mk) 1 in
          if bit_clear r' (fast_pattern_length bf) then
            match usize_sub (i + 1) (fast_pattern_length bf) with
            | None => None
            | Some start => Some (Some start)
            end
          else fast_find_loop bf r' it'
      end
  end.

Definition fast_find (bf : BitapFast) (t : list Z) : option (option nat) :=
  fast_find_loop bf (wnot 1) (enumerate (str_bytes t)).

(** ** Spec-side definitions used by the statements *)

(** Bit [j] of a word *)
Definition bit (x : Z) (j : nat) : bool := Z.testbit x (Z.of_nat j).

(** The mask of symbol [c] for the pattern [p] read from index [i]: all
    ones except a 0 at every index where [c] occurs *)
Fixpoint mask_from (i : nat) (p : list Z) (c : Z) : Z :=
  match p with
  | [] => ones
  | c' :: p' =>
      if Z.eqb c' c then Z.land (wnot (wshl 1 i)) (mask_from (S i) p' c)
      else mask_from (S i) p' c
  end.

(** The exact-match state after a sequence of masks: from [!1], each mask
    [m] gives [r = (r | m) << 1] *)
Definition find_state (ms : list Z) : Z :=
  fold_left (fun r m => wshl (Z.lor r m) 1) ms (wnot 1).

Definition outcome_is_ok {A} (o : outcome A) : Prop :=
  match o with Ok _ => True | _ => False end.

Definition outcome_is_err {A} (o : outcome A) : Prop :=
  match o with Err _ => True | _ => False end.

(** Matches with ends in [[n, n + len)], strictly ascending, each of
    distance at most [k] *)
Definition matches_in_order (n len k : nat) (l : list Match) : Prop :=
  Forall (fun m => (n <= end_ m < n + len)%nat /\ (distance m <= k)%nat) l /\
  StronglySorted lt (map end_ l).

(** ** Bits of words *)

Ltac nat_cases :=
  repeat match goal with
  | |- context [(?a <? ?b)%nat] => destruct (Nat.ltb_spec a b)
  | |- context [(?a <=? ?b)%nat] => destruct (Nat.leb_spec a b)
  | |- context [(?a =? ?b)%nat] => destruct (Nat.eqb_spec a b)
  end.

Lemma bit_ext x y : (forall j, bit x j = bit y j) -> x = y.
Proof.
  intros H. apply Z.bits_inj'. intros n Hn.
  rewrite <- (Z2Nat.id n Hn). apply H.
Qed.

Lemma bit_land x y j : bit (Z.land x y) j = bit x j && bit y j.
Proof. apply Z.land_spec. Qed.

Lemma bit_lor x y j : bit (Z.lor x y) j = bit x j || bit y j.
Proof. apply Z.lor_spec. Qed.

Lemma bit_ones j : bit ones j = (j <? W)%nat.
Proof.
  unfold bit, ones. rewrite Z.testbit_ones by lia.
  nat_cases; destruct (Z.leb_spec 0 (Z.of_nat j)); destruct (Z.ltb_spec (Z.of_nat j) (Z.of_nat W));
    simpl; lia.
Qed.

Lemma bit_wnot x j : bit (wnot x) j = xorb (bit x j) (j <? W)%nat.
Proof. unfold wnot. rewrite <- bit_ones. apply Z.lxor_spec. Qed.

Lemma bit_one j : bit 1 j = (j =? 0)%nat.
Proof.
  unfold bit. change 1 with (2 ^ 0). rewrite Z.pow2_bits_eqb by lia.
  nat_cases; destruct (Z.eqb_spec 0 (Z.of_nat j)); lia.
Qed.

Lemma bit_wshl x n j :
  bit (wshl x n) j = (j <? W)%nat && (n <=? j)%nat && bit x (j - n).
Proof.
  unfold wshl. rewrite bit_land, bit_ones. unfold bit.
  destruct (Nat.leb_spec n j).
  - rewrite Z.shiftl_spec by lia.
    replace (Z.of_nat j - Z.of_nat n) with (Z.of_nat (j - n)) by lia.
    rewrite andb_true_r. apply andb_comm.
  - rewrite Z.shiftl_spec by lia. rewrite Z.testbit_neg_r by lia.
    rewrite andb_false_r. simpl. now destruct (j <? W)%nat.
Qed.

Lemma bit_clear_spec x n : (n < W)%nat -> bit_clear x n = negb (bit x n).
Proof.
  intros Hn. unfold bit_clear.
  destruct (bit x n) eqn:E; simpl.
  - apply Z.eqb_neq. intros H0.
    assert (Hb : bit (Z.land x (wshl 1 n)) n = bit 0 n) by now rewrite H0.
    rewrite bit_land, bit_wshl, bit_one, E in Hb. unfold bit in Hb.
    rewrite Z.bits_0 in Hb. revert Hb. nat_cases; simpl; lia.
  - apply Z.eqb_eq. apply bit_ext. intros j.
    rewrite bit_land, bit_wshl, bit_one. unfold bit at 2. rewrite Z.bits_0.
    nat_cases; simpl; rewrite ?andb_false_r; try reflexivity.
    replace j with n by lia. now rewrite E.
Qed.

Lemma bit_neg_high x j : 0 <= x < 2 ^ Z.of_nat W -> (W <= j)%nat -> bit x j = false.
Proof.
  intros Hx Hj. unfold bit.
  destruct (Z.eq_dec x 0) as [ ->|Hne]; [apply Z.bits_0|].
  assert (Z.log2 x < Z.of_nat W) by (apply Z.log2_lt_pow2; lia).
  apply Z.bits_above_log2; lia.
Qed.

(** ** Pattern masks *)

Lemma bit_mask_from i p c j :
  bit (mask_from i p c) j =
  (j <? W)%nat && negb ((i <=? j)%nat && bool_decide (p !! (j - i)%nat = Some c)).
Proof.
  revert i. induction p as [|c' p IH]; intros i; simpl.
  - rewrite bit_ones. now rewrite andb_false_r, andb_true_r.
  - destruct (lt_eq_lt_dec j i) as [[Hlt| ->]|Hgt].
    + assert (Hb : (i <=? j)%nat = false) by (apply Nat.leb_gt; lia).
      assert (Hb' : (S i <=? j)%nat = false) by (apply Nat.leb_gt; lia).
      destruct (Z.eqb_spec c' c);
        rewrite ?bit_land, ?bit_wnot, ?bit_wshl, IH, Hb, Hb'; simpl;
        rewrite ?andb_false_r; simpl; destruct (j <? W)%nat; reflexivity.
    + rewrite Nat.sub_diag. simpl.
      assert (Hb' : (S i <=? i)%nat = false) by (apply Nat.leb_gt; lia).
      rewrite Nat.leb_refl.
      destruct (Z.eqb_spec c' c) as [ ->|Hne].
      * rewrite bool_decide_eq_true_2 by reflexivity.
        rewrite bit_land, bit_wnot, bit_wshl, IH, Hb', Nat.leb_refl, Nat.sub_diag, bit_one.
        simpl. destruct (i <? W)%nat; reflexivity.
      * rewrite bool_decide_eq_false_2 by congruence.
        rewrite IH, Hb'. reflexivity.
    + replace (j - i)%nat with (S (j - S i)) by lia.
      assert (Hb : (i <=? j)%nat = true) by (apply Nat.leb_le; lia).
      assert (Hb' : (S i <=? j)%nat = true) by (apply Nat.leb_le; lia).
      rewrite lookup_cons.
      destruct (Z.eqb_spec c' c);
        rewrite ?bit_land, ?bit_wnot, ?bit_wshl, IH, Hb, Hb'; [|reflexivity].
      rewrite bit_one. replace (j - i =? 0)%nat with false by (symmetry; apply Nat.eqb_neq; lia).
      rewrite andb_false_r. simpl. destruct (j <? W)%nat; reflexivity.
Qed.

Lemma mask_from_notin i p c : c ∉ p -> mask_from i p c = ones.
Proof.
  revert i. induction p as [|c' p IH]; intros i Hc; simpl; [reflexivity|].
  destruct (Z.eqb_spec c' c) as [->|_]; [set_solver|].
  apply IH. set_solver.
Qed.

Lemma land_ones_mask_from i p c : Z.land ones (mask_from i p c) = mask_from i p c.
Proof.
  apply bit_ext. intros j. rewrite bit_land, bit_ones, bit_mask_from.
  destruct (j <? W)%nat; reflexivity.
Qed.

Lemma land_wnot_wshl_ones y n : Z.land (wnot (wshl y n)) ones = wnot (wshl y n).
Proof.
  apply bit_ext. intros j. rewrite bit_land, bit_ones, !bit_wnot, bit_wshl.
  destruct (j <? W)%nat; simpl; rewrite ?andb_true_r, ?andb_false_r; reflexivity.
Qed.

Lemma shl_checked_lt x n : (n < W)%nat -> shl_checked x n = Some (wshl x n).
Proof. intros H. unfold shl_checked. now rewrite (proj2 (Nat.ltb_lt n W) H). Qed.

Lemma unicode_masks_from_some i p m :
  (i + length p <= W)%nat -> exists m', unicode_masks_from i p m = Some m'.
Proof.
  revert i m. induction p as [|c p IH]; intros i m Hl; simpl; [eauto|].
  simpl in Hl. rewrite shl_checked_lt by lia. apply IH. lia.
Qed.

Lemma unicode_masks_from_lookup i p m m' c :
  unicode_masks_from i p m = Some m' ->
  m' !! c = if bool_decide (c ∈ p)
            then Some (Z.land (default ones (m !! c)) (mask_from i p c))
            else m !! c.
Proof.
  revert i m. induction p as [|c0 p IH]; intros i m Hm; simpl in Hm.
  - injection Hm as <-. rewrite bool_decide_eq_false_2 by set_solver. reflexivity.
  - unfold shl_checked in Hm. destruct (i <? W)%nat; [|discriminate].
    set (b := wshl 1 i) in Hm.
    assert (Hins : (match m !! c0 with
                    | Some mask => <[c0:=Z.land mask (wnot b)]> m
                    | None => <[c0:=Z.land ones (wnot b)]> m
                    end) = <[c0 := Z.land (default ones (m !! c0)) (wnot b)]> m)
      by (destruct (m !! c0); reflexivity).
    rewrite Hins in Hm. apply IH in Hm. rewrite Hm. simpl.
    destruct (Z.eq_dec c c0) as [ ->|Hne].
    + rewrite lookup_insert_eq, Z.eqb_refl.
      rewrite (bool_decide_eq_true_2 (c0 ∈ c0 :: p)) by set_solver.
      case_bool_decide as Hin; simpl.
      * f_equal. now rewrite Z.land_assoc.
      * rewrite (mask_from_notin _ _ _ Hin). f_equal. f_equal.
        symmetry. apply land_wnot_wshl_ones.
    + rewrite lookup_insert_ne by congruence.
      replace (c0 =? c) with false by (symmetry; apply Z.eqb_neq; congruence).
      case_bool_decide as Hin; case_bool_decide as Hin'; try set_solver; reflexivity.
Qed.

Lemma unicode_pattern_ok p up :
  UnicodePattern_new p = Ok up ->
  u_length up = length p /\ (1 <= length p <= W - 2)%nat /\
  forall c, unicode_mask up c = mask_from 0 p c.
Proof.
  unfold UnicodePattern_new. destruct (unicode_masks_from 0 p ∅) as [m|] eqn:Hm;
    [|discriminate].
  nat_cases; try discriminate. intros Hok. injection Hok as <-.
  split; [reflexivity|]. split; [simpl in *; lia|].
  intros c. unfold unicode_mask. simpl.
  rewrite (unicode_masks_from_lookup _ _ _ _ c Hm), lookup_empty.
  case_bool_decide as Hin; simpl.
  - apply land_ones_mask_from.
  - symmetry. now apply mask_from_notin.
Qed.

Lemma ascii_masks_from_lookup i bs (masks : list Z) :
  Forall (fun b => 0 <= b /\ (Z.to_nat b < length masks)%nat) bs ->
  Forall (fun x => Z.land x ones = x) masks ->
  exists masks', ascii_masks_from i bs masks = Some masks' /\
    length masks' = length masks /\
    forall n : nat, masks' !! n =
      (fun x => Z.land x (mask_from i bs (Z.of_nat n))) <$> masks !! n.
Proof.
  revert i masks. induction bs as [|b bs IH]; intros i masks Hbs Hr; simpl.
  - exists masks. split; [reflexivity|]. split; [reflexivity|].
    intros n. destruct (masks !! n) as [x|] eqn:E; simpl; [|reflexivity].
    f_equal. symmetry. exact (proj1 (Forall_lookup _ _) Hr n x E).
  - apply Forall_cons in Hbs as [[Hb0 Hb] Hbs].
    destruct (lookup_lt_is_Some_2 masks (Z.to_nat b) Hb) as [m Hm].
    rewrite Hm.
    set (masks1 := <[Z.to_nat b := Z.land m (wnot (wshl 1 i))]> masks).
    assert (Hl1 : length masks1 = length masks) by apply length_insert.
    destruct (IH (S i) masks1) as (masks' & Hrun & Hlen & Hlk).
    { rewrite Hl1. exact Hbs. }
    { apply Forall_insert; [exact Hr|].
      rewrite <- Z.land_assoc, land_wnot_wshl_ones. reflexivity. }
    exists masks'. split; [exact Hrun|]. split; [lia|].
    intros n. rewrite Hlk. unfold masks1.
    destruct (decide (n = Z.to_nat b)) as [->|Hne].
    + rewrite list_lookup_insert_eq by exact Hb. rewrite Hm. simpl.
      rewrite Z2Nat.id, Z.eqb_refl by exact Hb0. f_equal.
      now rewrite Z.land_assoc.
    + rewrite list_lookup_insert_ne by congruence.
      replace (b =? Z.of_nat n) with false by (symmetry; apply Z.eqb_neq; lia).
      reflexivity.
Qed.

Lemma str_bytes_cons c t : str_bytes (c :: t) = utf8_encode c ++ str_bytes t.
Proof. reflexivity. Qed.

Lemma str_bytes_ascii t : Forall (fun c => is_ascii c = true) t -> str_bytes t = t.
Proof.
  induction t as [|c t IH]; intros Ht; [reflexivity|].
  apply Forall_cons in Ht as [Hc Ht]. rewrite str_bytes_cons, IH by exact Ht.
  unfold utf8_encode, is_ascii in *.
  apply andb_prop in Hc as [_ Hc]. now rewrite Hc.
Qed.

Lemma str_is_ascii_spec t :
  str_is_ascii t = true <-> Forall (fun c => is_ascii c = true) t.
Proof.
  unfold str_is_ascii. split.
  - induction t as [|c t IH]; intros H; [constructor|].
    rewrite str_bytes_cons, forallb_app in H. apply andb_prop in H as [Hc Ht].
    constructor; [|now apply IH].
    unfold utf8_encode in Hc. unfold is_ascii in *.
    destruct (c <? 128) eqn:E1; simpl in Hc;
      [revert Hc; destruct (0 <=? c); simpl; congruence|].
    apply Z.ltb_ge in E1.
    destruct (c <? 2048) eqn:E2; [|destruct (c <? 65536) eqn:E3]; simpl in Hc;
      repeat rewrite andb_true_iff in Hc;
      destruct Hc as [[_ Hc] _]; apply Z.ltb_lt in Hc;
      pose proof (Z.div_pos c 64); pose proof (Z.div_pos c 4096);
      pose proof (Z.div_pos c 262144); lia.
  - intros H. rewrite str_bytes_ascii by exact H.
    apply forallb_forall. intros c Hc. rewrite Forall_forall in H. apply H.
    now apply list_elem_of_In.
Qed.

Lemma ascii_pattern_ok p ap :
  AsciiPattern_new p = Ok ap ->
  Forall (fun c => is_ascii c = true) p /\ (1 <= length p <= W - 2)%nat /\
  a_length ap = length p /\ length (a_masks ap) = 256%nat /\
  forall n : nat, (n < 256)%nat -> a_masks ap !! n = Some (mask_from 0 p (Z.of_nat n)).
Proof.
  unfold AsciiPattern_new.
  nat_cases; try discriminate.
  destruct (str_is_ascii p) eqn:Ha; simpl; [|discriminate].
  apply str_is_ascii_spec in Ha.
  rewrite (str_bytes_ascii _ Ha) in *.
  unfold AsciiPattern_new_unchecked. rewrite (str_bytes_ascii _ Ha).
  destruct (ascii_masks_from_lookup 0 p (replicate 256 ones)) as (masks & Hrun & Hlen & Hlk).
  { eapply Forall_impl; [exact Ha|]. intros c Hc. unfold is_ascii in Hc.
    apply andb_prop in Hc as [H0 H1]. apply Z.leb_le in H0. apply Z.ltb_lt in H1.
    rewrite length_replicate. lia. }
  { apply Forall_replicate. apply bit_ext. intros j. rewrite bit_land, bit_ones.
    now destruct (j <? W)%nat. }
  rewrite Hrun. intros Hok. injection Hok as <-. simpl.
  repeat split; try (unfold W in *; lia); try exact Ha.
  - rewrite Hlen. apply length_replicate.
  - intros k Hk. rewrite Hlk, lookup_replicate_2 by exact Hk. simpl. f_equal.
    apply land_ones_mask_from.
Qed.

Lemma mapM_Some_map {A B} (f : A -> option B) (g : A -> B) (l : list A) :
  (forall x, x ∈ l -> f x = Some (g x)) -> mapM f l = Some (map g l).
Proof.
  induction l as [|x l IH]; intros H; [reflexivity|]. simpl.
  rewrite H by set_solver. simpl. rewrite IH by (intros y Hy; apply H; set_solver).
  reflexivity.
Qed.

Lemma is_ascii_bounds c : is_ascii c = true -> 0 <= c < 128.
Proof.
  unfold is_ascii. intros H. apply andb_prop in H as [H0 H1].
  apply Z.leb_le in H0. apply Z.ltb_lt in H1. lia.
Qed.

Lemma unicode_pattern_new_ok p :
  (1 <= length p <= W - 2)%nat -> exists up, UnicodePattern_new p = Ok up.
Proof.
  intros Hl. destruct (unicode_masks_from_some 0 p ∅) as [m Hm]; [lia|].
  unfold UnicodePattern_new. rewrite Hm.
  nat_cases; try lia. eauto.
Qed.

(** ** Claim C8: the three mask sources agree on ASCII input *)

(** C8: for every pattern accepted by [AsciiPattern::new] and every text of
    ASCII chars, the Unicode-codepoint source (over the [UnicodePattern] of
    the same pattern, which compiles too), the ASCII-byte source and the
    ASCII-only source produce the same sequence of masks: the same number
    of masks and the same word at every position. *)
Theorem mask_sources_agree (p t : list Z) (ap : AsciiPattern) :
  AsciiPattern_new p = Ok ap ->
  Forall (fun c => is_ascii c = true) t ->
  exists up, UnicodePattern_new p = Ok up /\
    ascii_mask_iter ap t = Some (unicode_mask_iter up t) /\
    ascii_only_mask_iter ap t = Some (unicode_mask_iter up t).
Proof.
  intros Hap Ht.
  destruct (ascii_pattern_ok p ap Hap) as (Hp & Hl & _ & _ & Hmasks).
  destruct (unicode_pattern_new_ok p Hl) as [up Hup].
  destruct (unicode_pattern_ok p up Hup) as (_ & _ & Humask).
  exists up. split; [exact Hup|].
  assert (Harr : forall c, c ∈ t -> a_masks ap !! Z.to_nat c = Some (unicode_mask up c)).
  { intros c Hc. rewrite Forall_forall in Ht.
    assert (Hb : 0 <= c < 128)
      by (apply is_ascii_bounds, Ht; assumption).
    rewrite Hmasks by lia. rewrite Z2Nat.id by lia. now rewrite Humask. }
  split.
  - unfold ascii_mask_iter, unicode_mask_iter. apply mapM_Some_map.
    intros c Hc. unfold ascii_mask.
    assert (Hac : is_ascii c = true)
      by (rewrite Forall_forall in Ht; apply Ht; assumption).
    rewrite Hac. simpl. apply is_ascii_bounds in Hac.
    rewrite Z.mod_small by lia. now apply Harr.
  - unfold ascii_only_mask_iter, unicode_mask_iter.
    rewrite (str_bytes_ascii t Ht). apply mapM_Some_map. exact Harr.
Qed.

(** ** The exact-match engine *)

Lemma bit_find_step r m j :
  bit (find_step r m) j = (j <? W)%nat && (1 <=? j)%nat && (bit r (j - 1) || bit m (j - 1)).
Proof. unfold find_step. now rewrite bit_wshl, bit_lor. Qed.

Lemma bit_not_one j : bit (wnot 1) j = (0 <? j)%nat && (j <? W)%nat.
Proof. rewrite bit_wnot, bit_one. nat_cases; unfold W in *; reflexivity || lia. Qed.

(** No bit above the number of consumed masks is ever cleared *)
Lemma find_step_high r m n :
  (forall j, (n < j < W)%nat -> bit r j = true) ->
  forall j, (S n < j < W)%nat -> bit (find_step r m) j = true.
Proof.
  intros Hr j Hj. rewrite bit_find_step, Hr by lia.
  nat_cases; simpl; lia || reflexivity.
Qed.

Lemma find_fold_high ms : forall r n,
  (forall j, (n < j < W)%nat -> bit r j = true) ->
  forall j, (n + length ms < j < W)%nat -> bit (fold_left find_step ms r) j = true.
Proof.
  induction ms as [|m ms IH]; intros r n Hr j Hj; simpl in *.
  - apply Hr. lia.
  - apply (IH _ (S n)); [|lia]. now apply find_step_high.
Qed.

Lemma find_collect_from len (Hlen : (len < W)%nat) rest : forall n r fuel,
  (forall j, (n < j < W)%nat -> bit r j = true) ->
  (length rest < fuel)%nat ->
  collect_fuel fuel {| f_iter := enumerate_from n rest; f_pattern_length := len; f_r := r |}
  = Some (map (fun i => i + 1 - len)%nat
            (List.filter (fun i => negb (bit (fold_left find_step (take (i + 1 - n) rest) r) len))
               (seq n (length rest)))).
Proof.
  induction rest as [|m rest IH]; intros n r fuel Hr Hf.
  - destruct fuel as [|f]; [simpl in Hf; lia|]. reflexivity.
  - destruct fuel as [|f]; [simpl in Hf; lia|]. simpl in Hf.
    assert (Hr' : forall j, (S n < j < W)%nat -> bit (find_step r m) j = true)
      by (apply find_step_high; exact Hr).
    assert (Htail : List.filter
              (fun i => negb (bit (fold_left find_step (take (i + 1 - n) (m :: rest)) r) len))
              (seq (S n) (length rest)) =
            List.filter
              (fun i => negb (bit (fold_left find_step (take (i + 1 - S n) rest) (find_step r m)) len))
              (seq (S n) (length rest))).
    { apply filter_ext_in. intros i Hi. apply in_seq in Hi.
      replace (i + 1 - n)%nat with (S (i + 1 - S n)) by lia. reflexivity. }
    simpl length. rewrite <- cons_seq. simpl List.filter.
    replace (n + 1 - n)%nat with 1%nat by lia. simpl take. simpl fold_left.
    rewrite Htail.
    simpl collect_fuel. simpl find_loop.
    rewrite (bit_clear_spec _ _ Hlen).
    destruct (bit (find_step r m) len) eqn:Eb; simpl negb; cbv iota.
    + specialize (IH (S n) (find_step r m) (S f) Hr' ltac:(lia)).
      simpl in IH. exact IH.
    + assert (Hle : (len <= n + 1)%nat).
      { destruct (Nat.le_gt_cases len (n + 1)) as [|Hgt]; [assumption|].
        rewrite Hr' in Eb by lia. discriminate. }
      unfold usize_sub. rewrite (proj2 (Nat.leb_le len (n + 1)) Hle).
      rewrite (IH (S n) (find_step r m) f Hr' ltac:(lia)). reflexivity.
Qed.

Lemma length_enumerate_from {A} (l : list A) n : length (enumerate_from n l) = length l.
Proof. revert n. induction l; intros n; simpl; [reflexivity|]. now rewrite IHl. Qed.

Lemma find_collect ms len :
  (len < W)%nat ->
  collect (BitapFind_new ms len) =
    Some (map (fun i => i + 1 - len)%nat
           (List.filter (fun i => negb (bit (find_state (take (i + 1) ms)) len))
              (seq 0 (length ms)))).
Proof.
  intros Hl. unfold collect, BitapFind_new, enumerate. simpl iter_bound.
  rewrite length_enumerate_from.
  rewrite (find_collect_from len Hl ms 0 (wnot 1)).
  - do 2 f_equal. apply filter_ext_in. intros i _. now rewrite Nat.sub_0_r.
  - intros j Hj. rewrite bit_not_one. nat_cases; reflexivity || lia.
  - lia.
Qed.

(** ** Claim C6: the exact-match engine *)

(** C6: the exact-match engine starts from the single row [r = !1] (all
    ones but bit 0); each mask [m] updates it to [(r | m) << 1]; after the
    update for the symbol at index [i], bit [length] of [r] clear signals
    a match ending at [i], reported as the start [i - (length - 1)].  The
    collected output is exactly these starts, in order. *)
Theorem find_engine_spec (ms : list Z) (len : nat) :
  (1 <= len <= W - 2)%nat ->
  f_r (BitapFind_new ms len) = wnot 1 /\
  (forall j, bit (wnot 1) j = (0 <? j)%nat && (j <? W)%nat) /\
  collect (BitapFind_new ms len) =
    Some (map (fun i => i - (len - 1))%nat
           (List.filter (fun i => negb (bit (find_state (take (i + 1) ms)) len))
              (seq 0 (length ms)))).
Proof.
  intros Hl. split; [reflexivity|]. split; [exact bit_not_one|].
  rewrite find_collect by lia. f_equal.
  apply map_ext. intros i. lia.
Qed.

(** ** Claim C10: the start position never underflows *)

(** The reference [find] with [max_edit_distance = 0]: one row, the inner
    loop never runs, and every reported end satisfies [m <= end + 1] *)
Lemma ref_run_find m masks trans (Hm : (m < W)%nat) text : forall n r,
  (forall j, (n < j < W)%nat -> bit r j = true) ->
  exists l, ref_run m 0 false masks [r] trans (enumerate_from n text) = Some l /\
    forall mt, mt ∈ l -> (m <= end_ mt + 1)%nat.
Proof.
  induction text as [|c text IH]; intros n r Hr; cbn [enumerate_from ref_run].
  - exists []. split; [reflexivity|]. intros mt Hmt. set_solver.
  - set (r' := find_step r (match masks !! c with Some mk => mk | None => ones end)).
    assert (Hstep : ref_step 0 false masks [r] trans c = Some ([r'], trans)) by reflexivity.
    rewrite Hstep. simpl.
    assert (Hr' : forall j, (S n < j < W)%nat -> bit r' j = true)
      by (apply find_step_high; exact Hr).
    destruct (IH (S n) r' Hr') as (l & Hl & Hlm).
    rewrite Hl. simpl. eexists. split; [reflexivity|].
    rewrite (bit_clear_spec _ _ Hm).
    destruct (bit r' m) eqn:Eb; simpl; [exact Hlm|].
    intros mt Hmt. apply elem_of_cons in Hmt as [->|Hmt]; [|now apply Hlm].
    simpl. destruct (Nat.le_gt_cases m (n + 1)) as [|Hgt]; [assumption|].
    rewrite Hr' in Eb by lia. discriminate.
Qed.

Lemma find_signal_le ms len :
  (len < W)%nat ->
  forall i, (i < length ms)%nat -> bit (find_state (take (i + 1) ms)) len = false ->
  (len <= i + 1)%nat.
Proof.
  intros Hl i Hi Hb. destruct (Nat.le_gt_cases len (i + 1)) as [|Hgt]; [assumption|].
  unfold find_state in Hb.
  rewrite (find_fold_high (take (i + 1) ms) (wnot 1) 0) in Hb; [discriminate| |].
  - intros j Hj. rewrite bit_not_one. nat_cases; reflexivity || lia.
  - rewrite length_take. lia.
Qed.

(** C10: for a pattern of valid length and any text, whenever the
    exact-match engine signals a match at symbol index [i] (bit [length]
    of [r] clear after the update), [i + 1 >= length]; so the start
    [i + 1 - length] never underflows: [BitapFind] and the reference
    [find] run to the end without panicking. *)
Theorem find_start_no_underflow (p t : list Z) (up : UnicodePattern) :
  UnicodePattern_new p = Ok up ->
  (forall i, (i < length t)%nat ->
     bit (find_state (take (i + 1) (unicode_mask_iter up t))) (length p) = false ->
     (length p <= i + 1)%nat) /\
  find_iter up t <> None /\
  ref_find p t <> None.
Proof.
  intros Hup. destruct (unicode_pattern_ok p up Hup) as (Hlen & Hl & _).
  split; [|split].
  - intros i Hi. apply find_signal_le; [unfold W in *; lia|].
    unfold unicode_mask_iter. now rewrite length_map.
  - unfold find_iter. rewrite Hlen, find_collect by (unfold W in *; lia). discriminate.
  - unfold ref_find, bitap_reference.
    nat_cases; try (unfold W in *; lia).
    destruct (unicode_masks_from_some 0 p ∅) as [masks Hm]; [lia|]. rewrite Hm.
    simpl.
    destruct (ref_run_find (length p) masks [wnot 1; Z.of_nat 0] ltac:(unfold W in *; lia)
                t 0 (wnot 1)) as (l & Hrun & Hle).
    { intros j Hj. rewrite bit_not_one. nat_cases; reflexivity || lia. }
    change (replicate (0 + 1) (wnot 1)) with [wnot 1].
    unfold enumerate. rewrite Hrun. simpl.
    rewrite (mapM_Some_map _ (fun mt => end_ mt + 1 - length p)%nat).
    + discriminate.
    + intros mt Hmt. unfold usize_sub. now rewrite (proj2 (Nat.leb_le _ _) (Hle mt Hmt)).
Qed.

(** Bit [i] of the exact-match state after the symbols [s] is clear exactly
    when the last [i] symbols of [s] are the first [i] pattern symbols. *)
Lemma find_state_prefix p s i :
  (i <= length p)%nat -> (i < W)%nat ->
  bit (find_state (map (mask_from 0 p) s)) i = false <->
  (i <= length s)%nat /\ drop (length s - i) s = take i p.
Proof.
  revert i. induction s as [|c s IH] using rev_ind; intros i Hip HiW.
  - simpl. unfold find_state. simpl. rewrite bit_not_one.
    destruct i as [|i]; simpl; [split; auto|].
    rewrite (proj2 (Nat.ltb_lt _ _) HiW). split; [discriminate|intros [? _]; lia].
  - unfold find_state in *. rewrite map_app, fold_left_app. simpl.
    fold (find_step (fold_left (fun r m => wshl (Z.lor r m) 1) (map (mask_from 0 p) s) (wnot 1))
                    (mask_from 0 p c)).
    rewrite bit_find_step, length_app. simpl length.
    destruct i as [|i].
    + rewrite Nat.sub_0_r, drop_ge by (rewrite length_app; simpl; lia).
      nat_cases; simpl; try lia. split; [intros _; split; [lia|reflexivity]|reflexivity].
    + rewrite (proj2 (Nat.ltb_lt _ _) HiW). simpl.
      replace (i - 0)%nat with i by lia.
      rewrite bit_mask_from.
      replace (i - 0)%nat with i by lia.
      rewrite (proj2 (Nat.ltb_lt i W)) by lia. simpl.
      destruct (lookup_lt_is_Some_2 p i) as [x Hx]; [lia|].
      rewrite (take_S_r p i x Hx).
      rewrite orb_false_iff, negb_false_iff, bool_decide_eq_true, IH by lia.
      rewrite Hx.
      split.
      * intros [[Hl Hd] Hxc]. injection Hxc as <-. split; [lia|].
        rewrite drop_app_le by lia. replace (length s - i)%nat with (length s + 1 - S i)%nat in Hd by lia.
        now rewrite Hd.
      * intros [Hl Hd]. rewrite drop_app_le in Hd by lia.
        replace (length s + 1 - S i)%nat with (length s - i)%nat in Hd by lia.
        apply app_inj_tail in Hd as [Hd ->]. split; [split; [lia|exact Hd]|reflexivity].
Qed.

(** C7 (as the code behaves): after the first [n] masks of a text [t],
    bit [i] of the exact-match state [r] (for [i <= length]) is clear if and
    only if the last [i] symbols consumed (not [i + 1]) equal the first [i]
    pattern symbols; bit [length] thus signals a full match. *)
Theorem find_prefix_invariant (p t : list Z) (up : UnicodePattern) (n i : nat) :
  UnicodePattern_new p = Ok up ->
  (n <= length t)%nat -> (i <= length p)%nat ->
  bit (find_state (take n (unicode_mask_iter up t))) i = false <->
  (i <= n)%nat /\ drop (n - i) (take n t) = take i p.
Proof.
  intros Hup Hn Hi. destruct (unicode_pattern_ok p up Hup) as (_ & Hl & Hm).
  assert (Heq : unicode_mask_iter up t = map (mask_from 0 p) t)
    by (apply map_ext; exact Hm).
  rewrite Heq, firstn_map, find_state_prefix by (unfold W in *; lia).
  rewrite length_take. now replace (Nat.min n (length t)) with n by lia.
Qed.

(** C7 as stated fails at bit 0: pattern "a", text "b": after one symbol
    bit 0 of [r] is clear, yet the last symbol is not the first pattern
    symbol. *)
Lemma find_prefix_invariant_counterexample :
  ~ (forall (p t : list Z) (up : UnicodePattern) (n i : nat),
       UnicodePattern_new p = Ok up -> (n <= length t)%nat ->
       (i < length p)%nat ->
       bit (find_state (take n (unicode_mask_iter up t))) i = false <->
       (i + 1 <= n)%nat /\ drop (n - (i + 1)) (take n t) = take (i + 1) p).
Proof.
  intros H.
  destruct (UnicodePattern_new [97]) as [up| |] eqn:E; [|discriminate E..].
  specialize (H [97] [98] up 1%nat 0%nat E ltac:(simpl; lia) ltac:(simpl; lia)).
  apply proj1 in H. vm_compute in E. injection E as <-.
  specialize (H eq_refl). destruct H as [_ Hd]. discriminate Hd.
Qed.

Lemma find_prefix_invariant_witness :
  exists up, UnicodePattern_new [97; 98] = Ok up /\
    (bit (find_state (take 2 (unicode_mask_iter up [97; 98]))) 2 = false <->
     (2 <= 2)%nat /\ drop 0 (take 2 [97; 98]) = take 2 [97; 98]).
Proof.
  eexists. split; [reflexivity|].
  apply (find_prefix_invariant [97; 98] [97; 98] _ 2 2); [reflexivity|simpl; lia..].
Defined.

Lemma find_engine_spec_witness :
  (1 <= 2 <= W - 2)%nat /\ f_r (BitapFind_new [0; 1; 2] 2) = wnot 1.
Proof.
  split; [unfold W; lia|].
  apply (find_engine_spec [0; 1; 2] 2). unfold W; lia.
Defined.

Lemma mask_sources_agree_witness :
  exists ap, AsciiPattern_new [97; 98] = Ok ap /\
    exists up, UnicodePattern_new [97; 98] = Ok up /\
      ascii_mask_iter ap [97; 99] = Some (unicode_mask_iter up [97; 99]).
Proof.
  eexists. split; [reflexivity|].
  destruct (mask_sources_agree [97; 98] [97; 99] _ eq_refl) as (up & Hup & H1 & _).
  - repeat constructor.
  - exists up. split; assumption.
Defined.

Lemma find_start_no_underflow_witness :
  exists up, UnicodePattern_new [97; 98] = Ok up /\ find_iter up [97; 98] <> None.
Proof.
  eexists. split; [reflexivity|].
  apply (find_start_no_underflow [97; 98] [97; 98]). reflexivity.
Defined.

(** C9: with pattern "alex", text "hey im aelx" and max distance 2, the OSA
    search yields [(2,8); (2,9); (1,10)] while the Levenshtein search yields
    [(2,8); (2,9); (2,10)]. *)
Theorem alex_osa_example :
  match UnicodePattern_new [97; 108; 101; 120] with
  | Ok up =>
      find_damerau_levenshtein_iter up [104; 101; 121; 32; 105; 109; 32; 97; 101; 108; 120] 2
        = Some [{| distance := 2; end_ := 8 |}; {| distance := 2; end_ := 9 |};
                {| distance := 1; end_ := 10 |}] /\
      find_levenshtein_iter up [104; 101; 121; 32; 105; 109; 32; 97; 101; 108; 120] 2
        = Some [{| distance := 2; end_ := 8 |}; {| distance := 2; end_ := 9 |};
                {| distance := 2; end_ := 10 |}]
  | _ => False
  end.
Proof. vm_compute. split; reflexivity. Qed.

(** C1: the production Levenshtein engine and the brute-force engine differ
    on pattern "ab", text "b", max distance 1: the brute-force engine reports
    distance 1 at end 0 (delete the leading "a"), the bit-parallel engine
    reports nothing. *)
Theorem levenshtein_misses_start_match :
  match UnicodePattern_new [97; 98] with
  | Ok up => find_levenshtein_iter up [98] 1 = Some []
  | _ => False
  end /\
  baseline_lev [97; 98] [98] 1 = Ok [{| distance := 1; end_ := 0 |}].
Proof. vm_compute. split; reflexivity. Qed.

(** C2: [BitapLevenshtein::new] and [BitapDamerauLevenshtein::new] set every
    row to [!1], not [(!1) << d]; row 1 keeps bit 1 set where [(!1) << 1]
    has it clear, and the OSA search then also misses the match of "ab"
    in "b" at distance 1 that the crate [bitap_reference] finds. *)
Theorem initial_rows_not_shifted (ms : list Z) (len k : nat) :
  (forall s, BitapLevenshtein_new ms len k = Some s -> l_r s = replicate (k + 1) (wnot 1)) /\
  (forall s, BitapDamerauLevenshtein_new ms len k = Some s ->
     d_r s = replicate (k + 1) (wnot 1)) /\
  bit (wnot 1) 1 = true /\ bit (wshl (wnot 1) 1) 1 = false /\
  match UnicodePattern_new [97; 98] with
  | Ok up => find_damerau_levenshtein_iter up [98] 1 = Some []
  | _ => False
  end /\
  crate_osa [97; 98] [98] 1 = Ok [{| distance := 1; end_ := 0 |}].
Proof.
  split.
  { unfold BitapLevenshtein_new, usize_add, vec_from_elem.
    destruct (_ <=? usize_max)%Z; [|discriminate]. simpl.
    destruct (_ <=? isize_max)%Z; [|discriminate]. simpl. now intros s [= <-]. }
  split.
  { unfold BitapDamerauLevenshtein_new, usize_add, vec_from_elem.
    destruct (_ <=? usize_max)%Z; [|discriminate]. simpl.
    destruct (8 * Z.of_nat (k + 1) <=? isize_max)%Z; [|discriminate]. simpl.
    destruct (_ <=? isize_max)%Z; [|discriminate]. simpl. now intros s [= <-]. }
  split; [reflexivity|]. split; [reflexivity|].
  vm_compute. split; reflexivity.
Qed.

Lemma initial_rows_not_shifted_witness :
  exists s, BitapLevenshtein_new [] 2 1 = Some s /\ l_r s = replicate (1 + 1) (wnot 1).
Proof.
  eexists. split; [reflexivity|].
  apply (proj1 (initial_rows_not_shifted [] 2 1)). reflexivity.
Defined.

(** C3: [reference::levenshtein] and [reference::damerau_levenshtein] panic
    on pattern "a", text "a", max distance 3: [trans] is built by
    [vec![!1usize, max_edit_distance]] with two elements, and [trans[2]] is
    read at row 3; the crate [bitap_reference] finds the exact match. *)
Theorem reference_trans_out_of_bounds :
  ref_levenshtein [97] [97] 3 = None /\
  ref_damerau_levenshtein [97] [97] 3 = None /\
  crate_lev [97] [97] 3 = Ok [{| distance := 0; end_ := 0 |}].
Proof. vm_compute. repeat split. Qed.

(** ** Construction outcomes *)

(** [1usize << i] panics at the char of index [W] *)
Lemma unicode_masks_from_none i p m :
  (i <= W)%nat -> (W < i + length p)%nat -> unicode_masks_from i p m = None.
Proof.
  revert i m. induction p as [|c p IH]; intros i m Hi Hl; simpl in *; [lia|].
  unfold shl_checked. destruct (Nat.ltb_spec i W); [|reflexivity].
  apply IH; lia.
Qed.

Lemma unicode_new_empty p : length p = 0%nat -> UnicodePattern_new p = Err EmptyPattern.
Proof. intros H. destruct p; [reflexivity|discriminate]. Qed.

Lemma unicode_new_too_long p :
  (W - 1 <= length p <= W)%nat -> UnicodePattern_new p = Err InvalidLength.
Proof.
  intros Hl. destruct (unicode_masks_from_some 0 p ∅) as [m Hm]; [lia|].
  unfold UnicodePattern_new. rewrite Hm. nat_cases; unfold W in *; try lia; reflexivity.
Qed.

Lemma unicode_new_panic p : (W < length p)%nat -> UnicodePattern_new p = Panic.
Proof.
  intros Hl. unfold UnicodePattern_new.
  rewrite unicode_masks_from_none by (unfold W in *; lia). reflexivity.
Qed.

Lemma ascii_unchecked_some p :
  Forall (fun c => is_ascii c = true) p -> exists ap, AsciiPattern_new_unchecked p = Some ap.
Proof.
  intros Hp. unfold AsciiPattern_new_unchecked.
  destruct (ascii_masks_from_lookup 0 (str_bytes p) (replicate 256 ones)) as (m & Hm & _).
  - rewrite str_bytes_ascii by exact Hp. rewrite length_replicate.
    eapply Forall_impl; [exact Hp|]. intros c Hc. apply is_ascii_bounds in Hc. lia.
  - apply Forall_replicate. apply Z.land_diag.
  - rewrite Hm. eauto.
Qed.

Lemma ascii_new_outcome p :
  (outcome_is_ok (AsciiPattern_new p) <->
   Forall (fun c => is_ascii c = true) p /\ (1 <= length p <= W - 2)%nat) /\
  AsciiPattern_new p <> Panic.
Proof.
  destruct (str_is_ascii p) eqn:Ha.
  - pose proof (proj1 (str_is_ascii_spec p) Ha) as Hp.
    destruct (ascii_unchecked_some p Hp) as [ap Hap].
    unfold AsciiPattern_new. rewrite Ha, Hap, (str_bytes_ascii p Hp). simpl negb.
    nat_cases; unfold W in *; simpl; split; try discriminate;
      split; intros Hx; try tauto; try lia; split; [exact Hp|lia].
  - assert (Hn : ~ Forall (fun c => is_ascii c = true) p).
    { rewrite <- str_is_ascii_spec. congruence. }
    unfold AsciiPattern_new. rewrite Ha. simpl negb.
    nat_cases; simpl; split; try discriminate; split; intros Hx; tauto.
Qed.

Lemma length_lev_rows mask pp pn rs : length (lev_rows mask pp pn rs) = length rs.
Proof.
  revert pp pn. induction rs as [|x rs IH]; intros pp pn; simpl; [reflexivity|].
  now rewrite IH.
Qed.

Lemma osa_rows_some mask pp pn rs ts :
  (length rs <= length ts)%nat ->
  exists rs' ts', osa_rows mask pp pn rs ts = Some (rs', ts') /\
    length rs' = length rs /\ length ts' = length ts.
Proof.
  revert pp pn ts. induction rs as [|x rs IH]; intros pp pn ts Hl; simpl.
  - eauto.
  - destruct ts as [|t ts]; simpl in Hl; [lia|].
    edestruct IH as (rs' & ts' & -> & H1 & H2); [lia|].
    do 2 eexists. split; [reflexivity|]. simpl. split; lia.
Qed.

(** The crate [bitap_reference] never panics when there is one row more
    than there are transposition words *)
Lemma crate_run_some len allow it : forall r trans,
  length r = S (length trans) -> exists l, crate_run len allow r trans it = Some l.
Proof.
  induction it as [|[i m] it IH]; intros r trans Hl; simpl; [eauto|].
  destruct r as [|r0 rs]; simpl in Hl; [lia|].
  destruct allow.
  - simpl. destruct (osa_rows_some m r0 (wshl (Z.lor r0 m) 1) rs trans) as (rs' & ts' & -> & H1 & H2);
      [lia|].
    destruct (IH (wshl (Z.lor r0 m) 1 :: rs') ts') as [l ->]; [simpl; lia|]. eauto.
  - simpl.
    destruct (IH (wshl (Z.lor r0 m) 1 :: lev_rows m r0 (wshl (Z.lor r0 m) 1) rs) trans)
      as [l ->]; [simpl; rewrite length_lev_rows; lia|]. eauto.
Qed.

Lemma crate_reference_outcome p t k allow :
  ((length p = 0 \/ W <= length p)%nat -> reference p t k allow = Err InvalidPattern) /\
  ((1 <= length p <= W - 1)%nat -> outcome_is_ok (reference p t k allow)).
Proof.
  unfold reference, pattern_length_is_valid. split.
  - intros H. nat_cases; try reflexivity; lia.
  - intros H. nat_cases; try lia. simpl.
    destruct (unicode_masks_from_some 0 p ∅) as [m ->]; [lia|].
    destruct (crate_run_some (length p) allow
      (enumerate (map (fun c => match m !! c with Some x => x | None => ones end) t))
      (map (fun i => wshl (wnot 1) i) (seq 0 (Nat.min k (length p) + 1)))
      (replicate (Nat.min k (length p)) (wnot 1))) as [l ->].
    + rewrite length_map, length_seq, length_replicate. lia.
    + exact I.
Qed.

Lemma baseline_outcome p t k :
  ((length p = 0 \/ W <= length p)%nat -> baseline_lev p t k = Err InvalidPattern) /\
  ((1 <= length p <= W - 1)%nat -> outcome_is_ok (baseline_lev p t k)).
Proof.
  unfold baseline_lev, pattern_length_is_valid. split.
  - intros H. nat_cases; try reflexivity; lia.
  - intros H. nat_cases; try lia. exact I.
Qed.

Lemma length_utf8_encode c : (1 <= length (utf8_encode c))%nat.
Proof.
  unfold utf8_encode. destruct (c <? 128); [simpl; lia|].
  destruct (c <? 2048); [simpl; lia|]. destruct (c <? 65536); simpl; lia.
Qed.

Lemma length_str_bytes_ge t : (length t <= length (str_bytes t))%nat.
Proof.
  induction t as [|c t IH]; [simpl; lia|].
  rewrite str_bytes_cons, length_app. pose proof (length_utf8_encode c). simpl. lia.
Qed.

(** C4: [UnicodePattern::new] runs its mask loop before its length check,
    so on a pattern of more than [W] chars the shift [1usize << i] at
    [i = W] panics (debug build) where its documentation promises an
    error; on [W - 1] and [W] chars it does return "invalid pattern
    length". [AsciiPattern::new] checks the length first and returns that
    error on every pattern of [W - 1] chars or more. *)
Theorem unicode_new_panics_on_long_pattern (p : list Z) :
  (W - 1 <= length p)%nat ->
  AsciiPattern_new p = Err InvalidLength /\
  UnicodePattern_new p = if (length p <=? W)%nat then Err InvalidLength else Panic.
Proof.
  intros Hl. split.
  - pose proof (length_str_bytes_ge p) as Hb. unfold AsciiPattern_new.
    nat_cases; try (unfold W in *; lia). reflexivity.
  - destruct (Nat.leb_spec (length p) W) as [Hw|Hw].
    + apply unicode_new_too_long. lia.
    + apply unicode_new_panic. exact Hw.
Qed.

Lemma unicode_new_panics_on_long_pattern_witness :
  (W - 1 <= length (replicate 65 97))%nat /\
  AsciiPattern_new (replicate 65 97) = Err InvalidLength /\
  UnicodePattern_new (replicate 65 97) = Panic.
Proof.
  split; [rewrite length_replicate; unfold W; lia|].
  exact (unicode_new_panics_on_long_pattern (replicate 65 97)
           ltac:(rewrite length_replicate; unfold W; lia)).
Defined.

(** ** Rows beyond the pattern length in [BitapLevenshtein] *)



Lemma length_lev_step mask r r' : lev_step mask r = Some r' -> length r' = length r.
Proof.
  destruct r as [|r0 rs]; simpl; [discriminate|]. intros [= <-].
  simpl. now rewrite length_lev_rows.
Qed.







(** The word-size constants, as numerals *)
Lemma usize_max_eq : usize_max = 18446744073709551615%Z.
Proof. reflexivity. Qed.

Lemma isize_max_eq : isize_max = 9223372036854775807%Z.
Proof. reflexivity. Qed.

(** [BitapLevenshtein::new] panics exactly when the [k + 1] rows do not
    fit in [isize::MAX] bytes; the overflow of [k + 1] is one case *)
Lemma lev_new_spec ms len k :
  BitapLevenshtein_new ms len k =
  if (8 * (Z.of_nat k + 1) <=? isize_max)%Z
  then Some {| l_iter := enumerate ms; l_pattern_length := len;
               l_r := replicate (k + 1) (wnot 1) |}
  else None.
Proof.
  unfold BitapLevenshtein_new, usize_add, vec_from_elem.
  rewrite usize_max_eq, isize_max_eq.
  destruct (Z.leb_spec (Z.of_nat k + Z.of_nat 1) 18446744073709551615);
    destruct (Z.leb_spec (8 * (Z.of_nat k + 1)) 9223372036854775807); simpl.
  - rewrite Nat2Z.inj_add. simpl. rewrite (proj2 (Z.leb_le _ _)) by lia. reflexivity.
  - rewrite Nat2Z.inj_add. simpl. rewrite (proj2 (Z.leb_gt _ _)) by lia. reflexivity.
  - lia.
  - reflexivity.
Qed.

Lemma osa_new_spec ms len k :
  BitapDamerauLevenshtein_new ms len k =
  if (8 * (Z.of_nat k + 1) <=? isize_max)%Z
  then Some {| d_iter := enumerate ms; d_pattern_length := len;
               d_r := replicate (k + 1) (wnot 1); d_trans := replicate k (wnot 1) |}
  else None.
Proof.
  unfold BitapDamerauLevenshtein_new, usize_add, vec_from_elem.
  rewrite usize_max_eq, isize_max_eq.
  destruct (Z.leb_spec (Z.of_nat k + Z.of_nat 1) 18446744073709551615);
    destruct (Z.leb_spec (8 * (Z.of_nat k + 1)) 9223372036854775807); simpl.
  - rewrite Nat2Z.inj_add. simpl.
    rewrite (proj2 (Z.leb_le (8 * (Z.of_nat k + 1)) _)) by lia. simpl.
    rewrite (proj2 (Z.leb_le (8 * Z.of_nat k) _)) by lia. reflexivity.
  - rewrite Nat2Z.inj_add. simpl.
    rewrite (proj2 (Z.leb_gt (8 * (Z.of_nat k + 1)) _)) by lia. reflexivity.
  - lia.
  - reflexivity.
Qed.


(** ** The mask sources on any text *)

(** The compiled ASCII masks, read as [mask_from] on every char *)
Lemma ascii_mask_mask_from p ap :
  AsciiPattern_new p = Ok ap -> forall c, ascii_mask ap c = Some (mask_from 0 p c).
Proof.
  intros Hap c. destruct (ascii_pattern_ok p ap Hap) as (Hp & _ & _ & _ & Hm).
  unfold ascii_mask. destruct (is_ascii c) eqn:Hc; simpl.
  - apply is_ascii_bounds in Hc. rewrite Z.mod_small by lia.
    rewrite Hm by lia. now rewrite Z2Nat.id by lia.
  - rewrite mask_from_notin; [reflexivity|]. intros Hin.
    rewrite Forall_forall in Hp. specialize (Hp c Hin). congruence.
Qed.

Lemma utf8_encode_bytes c :
  valid_char c -> Forall (fun b => 0 <= b < 256) (utf8_encode c).
Proof.
  unfold valid_char, utf8_encode. intros Hc.
  pose proof (Z.div_mod c 64 ltac:(lia)).
  pose proof (Z.div_mod c 4096 ltac:(lia)).
  pose proof (Z.div_mod c 262144 ltac:(lia)).
  pose proof (Z.mod_pos_bound c 64 ltac:(lia)).
  pose proof (Z.mod_pos_bound c 4096 ltac:(lia)).
  pose proof (Z.mod_pos_bound c 262144 ltac:(lia)).
  pose proof (Z.mod_pos_bound (c / 64) 64 ltac:(lia)).
  pose proof (Z.mod_pos_bound (c / 4096) 64 ltac:(lia)).
  destruct (Z.ltb_spec c 128); [repeat constructor; lia|].
  destruct (Z.ltb_spec c 2048); [repeat constructor; lia|].
  destruct (Z.ltb_spec c 65536); repeat constructor; lia.
Qed.

Lemma str_bytes_bytes t :
  Forall valid_char t -> Forall (fun b => 0 <= b < 256) (str_bytes t).
Proof.
  induction t as [|c t IH]; intros Ht; [constructor|].
  apply Forall_cons in Ht as [Hc Ht]. rewrite str_bytes_cons.
  apply Forall_app. split; [exact (utf8_encode_bytes c Hc)|exact (IH Ht)].
Qed.

Lemma ascii_only_mask_bytes p ap :
  AsciiPattern_new p = Ok ap -> forall b, 0 <= b < 256 ->
  a_masks ap !! Z.to_nat b = Some (mask_from 0 p b).
Proof.
  intros Hap b Hb. destruct (ascii_pattern_ok p ap Hap) as (_ & _ & _ & _ & Hm).
  rewrite Hm by lia. now rewrite Z2Nat.id by lia.
Qed.

Lemma unicode_mask_iter_mask_from p up t :
  UnicodePattern_new p = Ok up -> unicode_mask_iter up t = map (mask_from 0 p) t.
Proof.
  intros Hup. destruct (unicode_pattern_ok p up Hup) as (_ & _ & Hm).
  apply map_ext. exact Hm.
Qed.

(** An [AsciiPattern] searches any text, ASCII or not, exactly as the
    [UnicodePattern] of the same pattern: [AsciiMaskIterator] gives [!0] to
    a non-ASCII char, which no ASCII pattern contains. *)
Theorem ascii_searcher_matches_unicode (p t : list Z) (ap : AsciiPattern) (k : nat) :
  AsciiPattern_new p = Ok ap ->
  exists up, UnicodePattern_new p = Ok up /\
    ascii_find_iter ap t = find_iter up t /\
    ascii_find_levenshtein_iter ap t k = find_levenshtein_iter up t k /\
    ascii_find_damerau_levenshtein_iter ap t k = find_damerau_levenshtein_iter up t k.
Proof.
  intros Hap. destruct (ascii_pattern_ok p ap Hap) as (_ & Hl & Hal & _ & _).
  destruct (unicode_pattern_new_ok p Hl) as [up Hup].
  destruct (unicode_pattern_ok p up Hup) as (Hul & _ & _).
  assert (Hms : ascii_mask_iter ap t = Some (unicode_mask_iter up t)).
  { unfold ascii_mask_iter. rewrite (unicode_mask_iter_mask_from p up t Hup).
    apply mapM_Some_map. intros c _. exact (ascii_mask_mask_from p ap Hap c). }
  exists up. unfold ascii_find_iter, ascii_find_levenshtein_iter,
    ascii_find_damerau_levenshtein_iter, find_iter, find_levenshtein_iter,
    find_damerau_levenshtein_iter.
  rewrite Hms, Hal, Hul. simpl. auto.
Qed.

Lemma ascii_searcher_matches_unicode_witness :
  exists ap, AsciiPattern_new [97; 98] = Ok ap /\
    exists up, UnicodePattern_new [97; 98] = Ok up /\
      ascii_find_iter ap [233; 97; 98] = find_iter up [233; 97; 98].
Proof.
  eexists. split; [reflexivity|].
  destruct (ascii_searcher_matches_unicode [97; 98] [233; 97; 98] _ 1 eq_refl)
    as (up & Hup & H1 & _).
  exists up. split; assumption.
Defined.

(** An [AsciiOnlyPattern] searches the bytes of the text: for a text of
    chars, its searches are those of the [UnicodePattern] of the same
    pattern over the UTF-8 bytes of the text read as chars, so positions
    are byte indices and each byte of a multi-byte char is a non-matching
    symbol. *)
Theorem ascii_only_searcher_on_bytes (p t : list Z) (ap : AsciiPattern) (k : nat) :
  AsciiPattern_new p = Ok ap -> Forall valid_char t ->
  exists up, UnicodePattern_new p = Ok up /\
    ascii_only_find_iter ap t = find_iter up (str_bytes t) /\
    ascii_only_find_levenshtein_iter ap t k = find_levenshtein_iter up (str_bytes t) k /\
    ascii_only_find_damerau_levenshtein_iter ap t k =
      find_damerau_levenshtein_iter up (str_bytes t) k.
Proof.
  intros Hap Ht. destruct (ascii_pattern_ok p ap Hap) as (_ & Hl & Hal & _ & _).
  destruct (unicode_pattern_new_ok p Hl) as [up Hup].
  destruct (unicode_pattern_ok p up Hup) as (Hul & _ & _).
  assert (Hms : ascii_only_mask_iter ap t = Some (unicode_mask_iter up (str_bytes t))).
  { unfold ascii_only_mask_iter. rewrite (unicode_mask_iter_mask_from p up _ Hup).
    apply mapM_Some_map. intros b Hb.
    apply (ascii_only_mask_bytes p ap Hap).
    exact (proj1 (Forall_forall _ _) (str_bytes_bytes t Ht) b Hb). }
  exists up. unfold ascii_only_find_iter, ascii_only_find_levenshtein_iter,
    ascii_only_find_damerau_levenshtein_iter, find_iter, find_levenshtein_iter,
    find_damerau_levenshtein_iter.
  rewrite Hms, Hal, Hul. simpl. auto.
Qed.

Lemma ascii_only_searcher_on_bytes_witness :
  exists ap, AsciiPattern_new [97; 98] = Ok ap /\ Forall valid_char [233; 97; 98] /\
    exists up, UnicodePattern_new [97; 98] = Ok up /\
      ascii_only_find_iter ap [233; 97; 98] = find_iter up (str_bytes [233; 97; 98]).
Proof.
  eexists. split; [reflexivity|].
  assert (Hv : Forall valid_char [233; 97; 98]) by (repeat constructor; unfold valid_char; lia).
  split; [exact Hv|].
  destruct (ascii_only_searcher_on_bytes [97; 98] [233; 97; 98] _ 1 eq_refl Hv)
    as (up & Hup & H1 & _).
  exists up. split; assumption.
Defined.

(** ** The compiled masks *)

(** [UnicodePattern::new] keys its map by exactly the chars of the pattern;
    bit [j] of the mask of [c] (the map entry, or [!0] when absent) is
    clear exactly when the pattern's char at index [j] is [c]. *)
Theorem unicode_pattern_masks (p : list Z) (up : UnicodePattern) :
  UnicodePattern_new p = Ok up ->
  (forall c, u_masks up !! c = None <-> c ∉ p) /\
  (forall c j, bit (unicode_mask up c) j = (j <? W)%nat && negb (bool_decide (p !! j = Some c))).
Proof.
  intros Hup. split.
  - intros c. unfold UnicodePattern_new in Hup.
    destruct (unicode_masks_from 0 p ∅) as [m|] eqn:Hm; [|discriminate].
    revert Hup. nat_cases; try discriminate. intros Hup. injection Hup as <-. simpl.
    rewrite (unicode_masks_from_lookup 0 p ∅ m c Hm).
    destruct (bool_decide_reflect (c ∈ p)); split; intros Hc; try discriminate; tauto || reflexivity.
  - intros c j. destruct (unicode_pattern_ok p up Hup) as (_ & _ & Hm).
    rewrite Hm, bit_mask_from, Nat.sub_0_r. reflexivity.
Qed.

Lemma unicode_pattern_masks_witness :
  exists up, UnicodePattern_new [97; 98; 97] = Ok up /\
    (u_masks up !! 99 = None <-> 99 ∉ [97; 98; 97]).
Proof.
  eexists. split; [reflexivity|].
  apply (unicode_pattern_masks [97; 98; 97]). reflexivity.
Defined.

(** [AsciiPattern::new] fills all 256 entries; bit [j] of entry [n] is
    clear exactly when the pattern's byte at index [j] is [n]. *)
Theorem ascii_pattern_masks (p : list Z) (ap : AsciiPattern) :
  AsciiPattern_new p = Ok ap ->
  length (a_masks ap) = 256%nat /\
  forall n j, (n < 256)%nat -> exists x, a_masks ap !! n = Some x /\
    bit x j = (j <? W)%nat && negb (bool_decide (str_bytes p !! j = Some (Z.of_nat n))).
Proof.
  intros Hap. destruct (ascii_pattern_ok p ap Hap) as (Hp & _ & _ & Hl & Hm).
  split; [exact Hl|]. intros n j Hn. exists (mask_from 0 p (Z.of_nat n)).
  split; [exact (Hm n Hn)|].
  rewrite bit_mask_from, Nat.sub_0_r, (str_bytes_ascii p Hp). reflexivity.
Qed.

Lemma ascii_pattern_masks_witness :
  exists ap, AsciiPattern_new [97; 98] = Ok ap /\ length (a_masks ap) = 256%nat.
Proof.
  eexists. split; [reflexivity|].
  apply (ascii_pattern_masks [97; 98]). reflexivity.
Defined.

(** ** Shape of the Levenshtein and OSA outputs *)

Lemma scan_rows_range len : forall rs d0 d,
  scan_rows len d0 rs = Some d -> (d0 <= d < d0 + length rs)%nat.
Proof.
  induction rs as [|x rs IH]; intros d0 d H; simpl in H; [discriminate|].
  destruct (bit_clear x len).
  - injection H as <-. simpl. lia.
  - apply IH in H. simpl. lia.
Qed.

Lemma lev_loop_shape len k rest : forall n r,
  length r = S k ->
  lev_loop len r (enumerate_from n rest) = Some None \/
  exists m rest' r',
    lev_loop len r (enumerate_from n rest) =
      Some (Some (m, {| l_iter := enumerate_from (S (end_ m)) rest';
                        l_pattern_length := len; l_r := r' |})) /\
    (n <= end_ m)%nat /\ (S (end_ m) + length rest' = n + length rest)%nat /\
    (distance m <= k)%nat /\ length r' = S k.
Proof.
  induction rest as [|mask rest IH]; intros n r Hr; [left; reflexivity|].
  destruct r as [|r0 rs]; [discriminate|].
  set (r' := wshl (Z.lor r0 mask) 1 :: lev_rows mask r0 (wshl (Z.lor r0 mask) 1) rs).
  assert (Hs : lev_step mask (r0 :: rs) = Some r') by reflexivity.
  assert (Hl : length r' = S k) by (rewrite (length_lev_step _ _ _ Hs); exact Hr).
  cbn [enumerate_from lev_loop]. rewrite Hs.
  destruct (scan_rows len 0 r') as [d|] eqn:Ed.
  - right. exists {| distance := d; end_ := n |}, rest, r'.
    apply scan_rows_range in Ed.
    repeat split; cbn [end_ distance length] in *; try exact Hl; try reflexivity; lia.
  - destruct (IH (S n) r' Hl) as [H|(m & rest' & r'' & H & H1 & H2 & H3 & H4)];
      [left; exact H|right].
    exists m, rest', r''. simpl length. repeat split; lia || assumption.
Qed.

Lemma osa_loop_shape len k rest : forall n r trans,
  length r = S k -> length trans = k ->
  osa_loop len r trans (enumerate_from n rest) = Some None \/
  exists m rest' r' trans',
    osa_loop len r trans (enumerate_from n rest) =
      Some (Some (m, {| d_iter := enumerate_from (S (end_ m)) rest';
                        d_pattern_length := len; d_r := r'; d_trans := trans' |})) /\
    (n <= end_ m)%nat /\ (S (end_ m) + length rest' = n + length rest)%nat /\
    (distance m <= k)%nat /\ length r' = S k /\ length trans' = k.
Proof.
  induction rest as [|mask rest IH]; intros n r trans Hr Ht; [left; reflexivity|].
  destruct r as [|r0 rs]; [discriminate|]. simpl in Hr.
  destruct (osa_rows_some mask r0 (wshl (Z.lor r0 mask) 1) rs trans) as (rs' & ts' & Ho & H1 & H2);
    [lia|].
  set (r' := wshl (Z.lor r0 mask) 1 :: rs').
  assert (Hs : osa_step mask (r0 :: rs) trans = Some (r', ts'))
    by (unfold osa_step; rewrite Ho; reflexivity).
  assert (Hl : length r' = S k) by (simpl; lia).
  cbn [enumerate_from osa_loop]. rewrite Hs.
  destruct (scan_rows len 0 r') as [d|] eqn:Ed.
  - right. exists {| distance := d; end_ := n |}, rest, r', ts'.
    apply scan_rows_range in Ed.
    repeat split; cbn [end_ distance length] in *; try exact Hl; try reflexivity; lia.
  - destruct (IH (S n) r' ts' Hl ltac:(lia))
      as [H|(m & rest' & r'' & t'' & H & G1 & G2 & G3 & G4 & G5)]; [left; exact H|right].
    exists m, rest', r'', t''. simpl length. repeat split; lia || assumption.
Qed.

Lemma matches_in_order_cons n len k m l :
  (n <= end_ m)%nat -> (end_ m < n + len)%nat -> (distance m <= k)%nat ->
  matches_in_order (S (end_ m)) (n + len - S (end_ m)) k l ->
  matches_in_order n len k (m :: l).
Proof.
  intros H1 H2 H3 [Hf Hs]. split.
  - constructor; [lia|]. eapply Forall_impl; [exact Hf|]. simpl. lia.
  - simpl. constructor; [exact Hs|]. apply Forall_map.
    eapply Forall_impl; [exact Hf|]. simpl. lia.
Qed.

Lemma lev_collect_shape len k : forall fuel rest n r,
  length r = S k ->
  exists l, collect_fuel fuel {| l_iter := enumerate_from n rest;
                                 l_pattern_length := len; l_r := r |} = Some l /\
    matches_in_order n (length rest) k l.
Proof.
  induction fuel as [|f IH]; intros rest n r Hr.
  - exists []. split; [reflexivity|]. split; constructor.
  - cbn [collect_fuel iter_next BitapLevenshtein_iter l_pattern_length l_r l_iter].
    destruct (lev_loop_shape len k rest n r Hr)
      as [->|(m & rest' & r' & -> & H1 & H2 & H3 & H4)].
    + exists []. split; [reflexivity|]. split; constructor.
    + destruct (IH rest' (S (end_ m)) r' H4) as (l & -> & Hl).
      exists (m :: l). split; [reflexivity|].
      apply matches_in_order_cons; try lia.
      replace (n + length rest - S (end_ m))%nat with (length rest') by lia. exact Hl.
Qed.

Lemma osa_collect_shape len k : forall fuel rest n r trans,
  length r = S k -> length trans = k ->
  exists l, collect_fuel fuel {| d_iter := enumerate_from n rest; d_pattern_length := len;
                                 d_r := r; d_trans := trans |} = Some l /\
    matches_in_order n (length rest) k l.
Proof.
  induction fuel as [|f IH]; intros rest n r trans Hr Ht.
  - exists []. split; [reflexivity|]. split; constructor.
  - cbn [collect_fuel iter_next BitapDamerauLevenshtein_iter d_pattern_length d_r d_iter d_trans].
    destruct (osa_loop_shape len k rest n r trans Hr Ht)
      as [->|(m & rest' & r' & t' & -> & H1 & H2 & H3 & H4 & H5)].
    + exists []. split; [reflexivity|]. split; constructor.
    + destruct (IH rest' (S (end_ m)) r' t' H4 H5) as (l & -> & Hl).
      exists (m :: l). split; [reflexivity|].
      apply matches_in_order_cons; try lia.
      replace (n + length rest - S (end_ m))%nat with (length rest') by lia. exact Hl.
Qed.




(** [BitapLevenshtein::new] and [BitapDamerauLevenshtein::new] panic
    exactly when the [k + 1] rows of [max_distance = k] do not fit in
    [isize::MAX] bytes (that is, [k >= 2^60 - 1], [usize::MAX] included,
    where [max_distance + 1] overflows). An engine they build, with a
    pattern length below [W], never panics: collecting it yields at most
    one match per input position, in strictly ascending order of [end],
    each [end] an index of the input and each [distance] at most [k]. *)
Theorem levenshtein_engines_output (ms : list Z) (len k : nat) :
  (len < W)%nat ->
  (BitapLevenshtein_new ms len k = None <-> (isize_max < 8 * (Z.of_nat k + 1))%Z) /\
  (BitapDamerauLevenshtein_new ms len k = None <-> (isize_max < 8 * (Z.of_nat k + 1))%Z) /\
  (forall s, BitapLevenshtein_new ms len k = Some s ->
     exists l, collect s = Some l /\
       Forall (fun m => (end_ m < length ms)%nat /\ (distance m <= k)%nat) l /\
       StronglySorted lt (map end_ l)) /\
  (forall s, BitapDamerauLevenshtein_new ms len k = Some s ->
     exists l, collect s = Some l /\
       Forall (fun m => (end_ m < length ms)%nat /\ (distance m <= k)%nat) l /\
       StronglySorted lt (map end_ l)).
Proof.
  intros _. rewrite lev_new_spec, osa_new_spec.
  destruct (Z.leb_spec (8 * (Z.of_nat k + 1)) isize_max) as [Hb|Hb].
  - split; [split; [discriminate|lia]|]. split; [split; [discriminate|lia]|].
    split; intros s [= <-].
    + destruct (lev_collect_shape len k (S (length (enumerate ms))) ms 0
                  (replicate (k + 1) (wnot 1)))
        as (l & Hc & Hf & Hs); [rewrite length_replicate; lia|].
      exists l. split; [exact Hc|]. split; [|exact Hs].
      eapply Forall_impl; [exact Hf|]. simpl. lia.
    + destruct (osa_collect_shape len k (S (length (enumerate ms))) ms 0
                  (replicate (k + 1) (wnot 1)) (replicate k (wnot 1)))
        as (l & Hc & Hf & Hs); [rewrite length_replicate; lia|apply length_replicate|].
      exists l. split; [exact Hc|]. split; [|exact Hs].
      eapply Forall_impl; [exact Hf|]. simpl. lia.
  - split; [split; [intros _; exact Hb|reflexivity]|].
    split; [split; [intros _; exact Hb|reflexivity]|].
    split; intros s Hs; discriminate.
Qed.

Lemma levenshtein_engines_output_witness :
  (2 < W)%nat /\
  (BitapLevenshtein_new [] 2 1 = None <-> (isize_max < 8 * (Z.of_nat 1 + 1))%Z).
Proof.
  split; [unfold W; lia|].
  exact (proj1 (levenshtein_engines_output [] 2 1 ltac:(unfold W; lia))).
Defined.

Lemma collect_fuel_first {St Item} `{Iterator St Item} f (s : St) l :
  collect_fuel (S f) s = Some l -> iter_first s = Some (hd_error l).
Proof.
  unfold iter_first. simpl. destruct (iter_next s) as [[[x s']|]|]; try discriminate.
  - destruct (collect_fuel f s'); simpl; [|discriminate]. now intros [= <-].
  - now intros [= <-].
Qed.

(** [Searcher::find] of a compiled pattern never panics and returns the
    first item that [find_iter] collects ([None] when it collects
    nothing). [find_levenshtein] and [find_damerau_levenshtein] return the
    first item of the matching [*_iter] method, and panic when and only
    when it panics: exactly when the [k + 1] rows of max distance [k] do
    not fit in [isize::MAX] bytes ([k >= 2^60 - 1], [usize::MAX]
    included). *)
Theorem searcher_first_match (p t : list Z) (up : UnicodePattern) (k : nat) :
  UnicodePattern_new p = Ok up ->
  (exists l, find_iter up t = Some l /\ searcher_find up t = Some (hd_error l)) /\
  searcher_find_levenshtein up t k = hd_error <$> find_levenshtein_iter up t k /\
  searcher_find_damerau_levenshtein up t k = hd_error <$> find_damerau_levenshtein_iter up t k /\
  (find_levenshtein_iter up t k = None <-> (isize_max < 8 * (Z.of_nat k + 1))%Z) /\
  (find_damerau_levenshtein_iter up t k = None <-> (isize_max < 8 * (Z.of_nat k + 1))%Z).
Proof.
  intros Hup. destruct (unicode_pattern_ok p up Hup) as (Hlen & Hl & _).
  split.
  { pose proof (find_collect (unicode_mask_iter up t) (u_length up)
                  ltac:(rewrite Hlen; unfold W in *; lia)) as Hf.
    eexists. split; [unfold find_iter; exact Hf|].
    unfold collect in Hf. exact (collect_fuel_first _ _ _ Hf). }
  unfold searcher_find_levenshtein, searcher_find_damerau_levenshtein,
    find_levenshtein_iter, find_damerau_levenshtein_iter.
  rewrite lev_new_spec, osa_new_spec.
  destruct (Z.leb_spec (8 * (Z.of_nat k + 1)) isize_max) as [Hb|Hb];
    cbn [mbind option_bind].
  - destruct (lev_collect_shape (u_length up) k (S (length (enumerate (unicode_mask_iter up t))))
                (unicode_mask_iter up t) 0 (replicate (k + 1) (wnot 1)))
      as (l & Hc & _); [rewrite length_replicate; lia|].
    destruct (osa_collect_shape (u_length up) k (S (length (enumerate (unicode_mask_iter up t))))
                (unicode_mask_iter up t) 0 (replicate (k + 1) (wnot 1)) (replicate k (wnot 1)))
      as (l' & Hc' & _); [rewrite length_replicate; lia|apply length_replicate|].
    unfold collect. cbn [iter_bound BitapLevenshtein_iter BitapDamerauLevenshtein_iter
                         l_iter d_iter].
    unfold enumerate in Hc, Hc' |- *. rewrite Hc, Hc'. cbn [fmap option_fmap option_map].
    split; [exact (collect_fuel_first _ _ _ Hc)|].
    split; [exact (collect_fuel_first _ _ _ Hc')|].
    split; split; intros H; discriminate || lia.
  - split; [reflexivity|]. split; [reflexivity|].
    split; split; intros _; (exact Hb || reflexivity).
Qed.

Lemma searcher_first_match_witness :
  exists up, UnicodePattern_new [97; 98] = Ok up /\
    exists l, find_iter up [98; 97; 98] = Some l /\ searcher_find up [98; 97; 98] = Some (hd_error l).
Proof.
  eexists. split; [reflexivity|].
  apply (searcher_first_match [97; 98] [98; 97; 98] _ 1). reflexivity.
Defined.

(** ** The crate's [find] against [BitapFind] *)

Lemma crate_run_find_sim len (Hl : (1 <= len)%nat) rest : forall n r fuel,
  (length rest < fuel)%nat ->
  (crate_run len false [r] [] (enumerate_from n rest)
     ≫= mapM (fun mt => usize_sub (end_ mt) (len - 1))) =
  collect_fuel fuel {| f_iter := enumerate_from n rest; f_pattern_length := len; f_r := r |}.
Proof.
  induction rest as [|mask rest IH]; intros n r fuel Hf;
    (destruct fuel as [|f]; [simpl in Hf; lia|]); [reflexivity|].
  simpl in Hf.
  cbn [enumerate_from crate_run]. simpl (lev_step mask [r]).
  cbn [fmap option_fmap option_map].
  change (wshl (Z.lor r mask) 1) with (find_step r mask).
  cbn [scan_rows].
  cbn [collect_fuel iter_next BitapFind_iter f_pattern_length f_r f_iter find_loop].
  destruct (bit_clear (find_step r mask) len) eqn:Eb.
  - specialize (IH (S n) (find_step r mask) f ltac:(lia)).
    destruct (crate_run len false [find_step r mask] [] (enumerate_from (S n) rest)) as [l|];
      simpl in *.
    + unfold usize_sub. replace (len - 1 <=? n)%nat with (len <=? n + 1)%nat
        by (nat_cases; lia). replace (n - (len - 1))%nat with (n + 1 - len)%nat by lia.
      destruct (len <=? n + 1)%nat; [|reflexivity]. simpl. rewrite <- IH. reflexivity.
    + unfold usize_sub. destruct (len <=? n + 1)%nat; [|reflexivity]. simpl.
      rewrite <- IH. reflexivity.
  - specialize (IH (S n) (find_step r mask) (S f) ltac:(lia)).
    destruct (crate_run len false [find_step r mask] [] (enumerate_from (S n) rest)) as [l|];
      simpl in *; exact IH.
Qed.

Lemma crate_letter_mask p m :
  unicode_masks_from 0 p ∅ = Some m ->
  forall c, match m !! c with Some x => x | None => ones end = mask_from 0 p c.
Proof.
  intros Hm c. rewrite (unicode_masks_from_lookup 0 p ∅ m c Hm).
  destruct (bool_decide_reflect (c ∈ p)) as [Hin|Hin].
  - rewrite lookup_empty. simpl. apply land_ones_mask_from.
  - rewrite lookup_empty. symmetry. now apply mask_from_notin.
Qed.

(** [bitap_reference::find] never panics on a pattern of 1 to [W - 1]
    chars and returns the match starts of the exact-match engine
    [BitapFind]: the same list as [Searcher::find_iter] of the
    [UnicodePattern] whenever that pattern compiles. *)
Theorem crate_find_agrees (p t : list Z) :
  (1 <= length p <= W - 1)%nat ->
  exists l, crate_find p t = Ok l /\
    collect (BitapFind_new (map (mask_from 0 p) t) (length p)) = Some l /\
    forall up, UnicodePattern_new p = Ok up -> find_iter up t = Some l.
Proof.
  intros Hl.
  pose proof (find_collect (map (mask_from 0 p) t) (length p) ltac:(unfold W in *; lia)) as Hf.
  set (l := map (fun i : nat => (i + 1 - length p)%nat) _) in Hf. exists l.
  assert (Hrest : forall up, UnicodePattern_new p = Ok up -> find_iter up t = Some l).
  { intros up Hup. destruct (unicode_pattern_ok p up Hup) as (Hlen & _ & _).
    unfold find_iter. rewrite (unicode_mask_iter_mask_from p up t Hup), Hlen. exact Hf. }
  split; [|split; [exact Hf|exact Hrest]].
  destruct (unicode_masks_from_some 0 p ∅) as [m Hm]; [lia|].
  unfold collect, BitapFind_new, enumerate in Hf.
  cbn [iter_bound BitapFind_iter f_iter] in Hf.
  rewrite <- (crate_run_find_sim (length p) ltac:(lia)) in Hf
    by (rewrite length_enumerate_from; lia).
  assert (Hmap : map (fun c => match m !! c with Some x => x | None => ones end) t =
                 map (mask_from 0 p) t) by (apply map_ext; exact (crate_letter_mask p m Hm)).
  unfold crate_find, reference, pattern_length_is_valid.
  nat_cases; try (unfold W in *; lia). simpl negb. cbv iota.
  rewrite Hm, Hmap.
  replace (Nat.min 0 (length p)) with 0%nat by lia.
  change (map (fun i => wshl (wnot 1) i) (seq 0 (0 + 1))) with [wshl (wnot 1) 0].
  replace (wshl (wnot 1) 0) with (wnot 1) by reflexivity.
  change (replicate 0 (wnot 1)) with (@nil Z). unfold enumerate.
  destruct (crate_run (length p) false [wnot 1] [] (enumerate_from 0 (map (mask_from 0 p) t)))
    as [v|]; simpl in Hf; [|discriminate].
  unfold usize_sub at 1. nat_cases; try lia. rewrite Hf. reflexivity.
Qed.

Lemma crate_find_agrees_witness :
  (1 <= length [97; 98] <= W - 1)%nat /\
  exists l, crate_find [97; 98] [97; 98; 97; 98] = Ok l.
Proof.
  split; [simpl; unfold W; lia|].
  destruct (crate_find_agrees [97; 98] [97; 98; 97; 98] ltac:(simpl; unfold W; lia))
    as (l & H & _).
  exists l. exact H.
Defined.

(** ** [BitapFast] *)

Lemma fast_new_spec p bf :
  BitapFast_new p = Some bf ->
  Forall (fun c => is_ascii c = true) p /\ (1 <= length p <= W - 1)%nat /\
  fast_pattern_length bf = length p /\
  forall n : nat, (n < 256)%nat -> fast_masks bf !! n = Some (mask_from 0 p (Z.of_nat n)).
Proof.
  unfold BitapFast_new.
  destruct (str_is_ascii p) eqn:Ha; cbn [negb]; [|discriminate].
  apply str_is_ascii_spec in Ha. rewrite (str_bytes_ascii _ Ha).
  nat_cases; try discriminate.
  destruct (ascii_masks_from_lookup 0 p (replicate 256 ones)) as (masks & Hrun & Hlen & Hlk).
  { eapply Forall_impl; [exact Ha|]. intros c Hc. apply is_ascii_bounds in Hc.
    rewrite length_replicate. lia. }
  { apply Forall_replicate. apply Z.land_diag. }
  rewrite Hrun. simpl. intros Hok. injection Hok as <-. simpl.
  repeat split; try (unfold W in *; lia); try exact Ha.
  intros k Hk. rewrite Hlk, lookup_replicate_2 by exact Hk. simpl. f_equal.
  apply land_ones_mask_from.
Qed.

Lemma fast_new_some p :
  Forall (fun c => is_ascii c = true) p -> (1 <= length p <= W - 1)%nat ->
  exists bf, BitapFast_new p = Some bf.
Proof.
  intros Ha Hl. unfold BitapFast_new.
  rewrite (proj2 (str_is_ascii_spec p) Ha), (str_bytes_ascii _ Ha). cbn [negb].
  nat_cases; try (unfold W in *; lia).
  destruct (ascii_masks_from_lookup 0 p (replicate 256 ones)) as (masks & Hrun & _ & _).
  { eapply Forall_impl; [exact Ha|]. intros c Hc. apply is_ascii_bounds in Hc.
    rewrite length_replicate. lia. }
  { apply Forall_replicate. apply Z.land_diag. }
  rewrite Hrun. simpl. eauto.
Qed.

(** [BitapFast::new] returns (rather than panicking) exactly on the ASCII
    patterns of 1 to [W - 1] bytes: one byte longer than [AsciiPattern::new]
    accepts. *)
Theorem bitap_fast_new_accepts (p : list Z) :
  (exists bf, BitapFast_new p = Some bf) <->
  Forall (fun c => is_ascii c = true) p /\ (1 <= length p <= W - 1)%nat.
Proof.
  split.
  - intros [bf Hbf]. destruct (fast_new_spec p bf Hbf) as (Ha & Hl & _). auto.
  - intros [Ha Hl]. exact (fast_new_some p Ha Hl).
Qed.

Lemma fast_loop_sim bf (mk : Z -> Z) rest :
  Forall (fun b => fast_masks bf !! Z.to_nat b = Some (mk b)) rest ->
  forall n r fuel, (length rest < fuel)%nat ->
  fast_loop bf r (enumerate_from n rest) =
  collect_fuel fuel {| f_iter := enumerate_from n (map mk rest);
                       f_pattern_length := fast_pattern_length bf; f_r := r |}.
Proof.
  induction rest as [|b rest IH]; intros Hm n r fuel Hf;
    (destruct fuel as [|f]; [simpl in Hf; lia|]); [reflexivity|].
  apply Forall_cons in Hm as [Hb Hm]. simpl in Hf.
  cbn [enumerate_from fast_loop map]. rewrite Hb.
  cbn [collect_fuel iter_next BitapFind_iter f_pattern_length f_r f_iter find_loop].
  change (wshl (Z.lor r (mk b)) 1) with (find_step r (mk b)).
  destruct (bit_clear (find_step r (mk b)) (fast_pattern_length bf)).
  - destruct (usize_sub (n + 1) (fast_pattern_length bf)); [|reflexivity].
    rewrite (IH Hm (S n) _ f) by lia. reflexivity.
  - exact (IH Hm (S n) _ (S f) ltac:(lia)).
Qed.

Lemma fast_find_sim bf (mk : Z -> Z) rest :
  Forall (fun b => fast_masks bf !! Z.to_nat b = Some (mk b)) rest ->
  forall n r,
  fast_find_loop bf r (enumerate_from n rest) =
  iter_first {| f_iter := enumerate_from n (map mk rest);
                f_pattern_length := fast_pattern_length bf; f_r := r |}.
Proof.
  induction rest as [|b rest IH]; intros Hm n r; [reflexivity|].
  apply Forall_cons in Hm as [Hb Hm].
  cbn [enumerate_from fast_find_loop map]. rewrite Hb.
  unfold iter_first. cbn [iter_next BitapFind_iter f_pattern_length f_r f_iter find_loop].
  change (wshl (Z.lor r (mk b)) 1) with (find_step r (mk b)).
  destruct (bit_clear (find_step r (mk b)) (fast_pattern_length bf)).
  - destruct (usize_sub (n + 1) (fast_pattern_length bf)); reflexivity.
  - exact (IH Hm (S n) _).
Qed.

(** For a [BitapFast] and a text of chars, [find_iter] never panics and
    yields the match starts of the exact-match engine over the masks of the
    text's bytes (byte offsets); [find] returns the first of them; and
    whenever [AsciiPattern::new] accepts the same pattern, the
    [AsciiOnlyPattern] search yields the same list. *)
Theorem bitap_fast_search (p t : list Z) (bf : BitapFast) :
  BitapFast_new p = Some bf -> Forall valid_char t ->
  exists l, fast_find_iter bf t = Some l /\
    collect (BitapFind_new (map (mask_from 0 p) (str_bytes t)) (length p)) = Some l /\
    fast_find bf t = Some (hd_error l) /\
    forall ap, AsciiPattern_new p = Ok ap -> ascii_only_find_iter ap t = Some l.
Proof.
  intros Hbf Ht. destruct (fast_new_spec p bf Hbf) as (Ha & Hl & Hlen & Hm).
  set (ms := map (mask_from 0 p) (str_bytes t)).
  pose proof (find_collect ms (length p) ltac:(unfold W in *; lia)) as Hf.
  set (l := map (fun i : nat => (i + 1 - length p)%nat) _) in Hf.
  assert (Hb : Forall (fun b => fast_masks bf !! Z.to_nat b = Some (mask_from 0 p b)) (str_bytes t)).
  { eapply Forall_impl; [exact (str_bytes_bytes t Ht)|]. intros b Hb.
    simpl in Hb. rewrite Hm by lia. now rewrite Z2Nat.id by lia. }
  exists l. split; [|split; [exact Hf|split]].
  - unfold fast_find_iter, enumerate.
    rewrite (fast_loop_sim bf (mask_from 0 p) (str_bytes t) Hb 0 (wnot 1)
               (S (length (str_bytes t))) ltac:(lia)).
    rewrite Hlen. unfold collect, BitapFind_new, enumerate in Hf.
    cbn [iter_bound BitapFind_iter f_iter] in Hf. rewrite length_enumerate_from in Hf.
    unfold ms in Hf. rewrite length_map in Hf. exact Hf.
  - unfold fast_find, enumerate. rewrite (fast_find_sim bf (mask_from 0 p) (str_bytes t) Hb), Hlen.
    unfold collect in Hf. exact (collect_fuel_first _ _ _ Hf).
  - intros ap Hap. destruct (ascii_pattern_ok p ap Hap) as (_ & _ & Hal & _ & _).
    unfold ascii_only_find_iter, ascii_only_mask_iter.
    rewrite (mapM_Some_map _ (mask_from 0 p)).
    + simpl. rewrite Hal. exact Hf.
    + intros b Hin. apply (ascii_only_mask_bytes p ap Hap).
      exact (proj1 (Forall_forall _ _) (str_bytes_bytes t Ht) b Hin).
Qed.

Lemma bitap_fast_search_witness :
  exists bf, BitapFast_new [97; 98] = Some bf /\ Forall valid_char [233; 97; 98] /\
    exists l, fast_find_iter bf [233; 97; 98] = Some l.
Proof.
  eexists. split; [reflexivity|].
  assert (Hv : Forall valid_char [233; 97; 98]) by (repeat constructor; unfold valid_char; lia).
  split; [exact Hv|].
  destruct (bitap_fast_search [97; 98] [233; 97; 98] _ eq_refl Hv) as (l & H & _).
  exists l. exact H.
Defined.

(** ** Shape of the outputs of the crate [bitap_reference] *)

Lemma matches_in_order_skip n len k l :
  matches_in_order (S n) len k l -> matches_in_order n (S len) k l.
Proof.
  intros [Hf Hs]. split; [|exact Hs]. eapply Forall_impl; [exact Hf|]. simpl. lia.
Qed.

Lemma crate_run_shape len allow rest : forall n r trans,
  length r = S (length trans) ->
  exists l, crate_run len allow r trans (enumerate_from n rest) = Some l /\
    matches_in_order n (length rest) (length trans) l.
Proof.
  induction rest as [|mask rest IH]; intros n r trans Hl.
  - exists []. split; [reflexivity|]. split; constructor.
  - destruct r as [|r0 rs]; simpl in Hl; [lia|].
    assert (Hstep : exists r' trans',
      (if allow then osa_step mask (r0 :: rs) trans
       else (fun r' => (r', trans)) <$> lev_step mask (r0 :: rs)) = Some (r', trans') /\
      length r' = S (length trans) /\ length trans' = length trans).
    { destruct allow.
      - destruct (osa_rows_some mask r0 (wshl (Z.lor r0 mask) 1) rs trans)
          as (rs' & ts' & Ho & H1 & H2); [lia|].
        exists (wshl (Z.lor r0 mask) 1 :: rs'), ts'.
        unfold osa_step. rewrite Ho. simpl. split; [reflexivity|]. split; lia.
      - eexists _, trans. split; [reflexivity|]. simpl. rewrite length_lev_rows. split; lia. }
    destruct Hstep as (r' & trans' & Hs & H1 & H2).
    cbn [enumerate_from crate_run]. rewrite Hs.
    destruct (IH (S n) r' trans' ltac:(lia)) as (l & -> & Hm). rewrite H2 in Hm.
    simpl. destruct (scan_rows len 0 r') as [d|] eqn:Ed.
    + eexists. split; [reflexivity|]. apply scan_rows_range in Ed.
      apply matches_in_order_cons; simpl; try lia.
      replace (n + S (length rest) - S n)%nat with (length rest) by lia. exact Hm.
    + eexists. split; [reflexivity|]. simpl length. now apply matches_in_order_skip.
Qed.

Lemma omap_seq_in_order (f : nat -> option Match) k :
  (forall i m, f i = Some m -> end_ m = i /\ (distance m <= k)%nat) ->
  forall len n, matches_in_order n len k (omap f (seq n len)).
Proof.
  intros Hf. induction len as [|len IH]; intros n.
  - split; constructor.
  - simpl. destruct (f n) as [m|] eqn:E.
    + destruct (Hf n m E) as [He Hd]. apply matches_in_order_cons; try lia.
      rewrite He. replace (n + S len - S n)%nat with len by lia. apply IH.
    + apply matches_in_order_skip, IH.
Qed.

(** On a pattern of 1 to [W - 1] chars, [reference] (with or without
    transpositions) never panics and [baseline] (Levenshtein) succeeds; both
    report at most one match per text position, in strictly ascending
    order of [end], each [end] a char index of the text and each
    [distance] at most [min(max_distance, pattern length)]. *)
Theorem crate_outputs_in_order (p t : list Z) (k : nat) (allow : bool) :
  (1 <= length p <= W - 1)%nat ->
  (exists l, reference p t k allow = Ok l /\
     Forall (fun m => (end_ m < length t)%nat /\ (distance m <= Nat.min k (length p))%nat) l /\
     StronglySorted lt (map end_ l)) /\
  (exists l, baseline_lev p t k = Ok l /\
     Forall (fun m => (end_ m < length t)%nat /\ (distance m <= Nat.min k (length p))%nat) l /\
     StronglySorted lt (map end_ l)).
Proof.
  intros Hl. split.
  - unfold reference, pattern_length_is_valid.
    nat_cases; try (unfold W in *; lia). simpl negb. cbv iota.
    destruct (unicode_masks_from_some 0 p ∅) as [m ->]; [lia|]. unfold enumerate.
    edestruct (crate_run_shape (length p) allow) as (l & -> & Hf & Hs);
      [|exists l; split; [reflexivity|split; [|exact Hs]]].
    + rewrite length_map, length_seq, length_replicate. lia.
    + eapply Forall_impl; [exact Hf|]. simpl.
      rewrite ?length_enumerate_from, ?length_map, ?length_replicate in *. lia.
  - unfold baseline_lev, pattern_length_is_valid.
    nat_cases; try (unfold W in *; lia). simpl negb. cbv iota.
    eexists. split; [reflexivity|].
    match goal with |- context [omap ?f (seq 0 (length t))] =>
      destruct (omap_seq_in_order f (Nat.min k (length p))) with (len := length t) (n := 0%nat)
        as [Hf Hs] end.
    + intros i mt. destruct (_ <=? _)%nat eqn:E; [|discriminate].
      intros [= <-]. simpl. apply Nat.leb_le in E. lia.
    + split; [|exact Hs]. eapply Forall_impl; [exact Hf|]. simpl. lia.
Qed.

Lemma crate_outputs_in_order_witness :
  (1 <= length [97; 98] <= W - 1)%nat /\
  exists l, reference [97; 98] [98; 97] 1 true = Ok l.
Proof.
  split; [simpl; unfold W; lia|].
  destruct (crate_outputs_in_order [97; 98] [98; 97] 1 true ltac:(simpl; unfold W; lia))
    as [(l & H & _) _].
  exists l. exact H.
Defined.

(** ** How far the engine of [src/src/reference.rs] runs *)

Lemma ref_inner_some allow lm : forall n j pp r trans,
  (1 <= j)%nat -> (j + n <= length r)%nat -> (j + n <= S (length trans))%nat ->
  exists r' trans', ref_inner n j allow lm pp r trans = Some (r', trans') /\
    length r' = length r /\ length trans' = length trans.
Proof.
  induction n as [|n IH]; intros j pp r trans Hj Hr Ht; simpl; [eauto|].
  destruct (lookup_lt_is_Some_2 r j) as [x Hx]; [lia|]. rewrite Hx. simpl.
  destruct (lookup_lt_is_Some_2 r (j - 1)) as [y Hy]; [lia|]. rewrite Hy. simpl.
  destruct (lookup_lt_is_Some_2 trans (j - 1)) as [z Hz]; [lia|]. rewrite Hz. simpl.
  edestruct (IH (S j)) as (r' & t' & -> & H1 & H2);
    [lia|rewrite length_insert; lia|rewrite length_insert; lia|].
  exists r', t'. split; [reflexivity|]. rewrite H1, H2, !length_insert. auto.
Qed.

Lemma ref_inner_none allow lm : forall n j pp r trans,
  (1 <= j <= 3)%nat -> (j + n <= length r)%nat -> length trans = 2%nat -> (3 < j + n)%nat ->
  ref_inner n j allow lm pp r trans = None.
Proof.
  induction n as [|n IH]; intros j pp r trans Hj Hr Ht Hn; [lia|]. simpl.
  destruct (lookup_lt_is_Some_2 r j) as [x Hx]; [lia|]. rewrite Hx. simpl.
  destruct (lookup_lt_is_Some_2 r (j - 1)) as [y Hy]; [lia|]. rewrite Hy. simpl.
  destruct (Nat.lt_ge_cases (j - 1) 2) as [Hlt|Hge].
  - destruct (lookup_lt_is_Some_2 trans (j - 1)) as [z Hz]; [lia|]. rewrite Hz. simpl.
    apply IH; rewrite ?length_insert; lia.
  - rewrite (lookup_ge_None_2 trans (j - 1)) by lia. reflexivity.
Qed.

Lemma ref_run_shape m k allow masks :
  forall rest n r trans,
  length r = S k -> (S k <= S (length trans))%nat ->
  exists l, ref_run m k allow masks r trans (enumerate_from n rest) = Some l /\
    matches_in_order n (length rest) k l.
Proof.
  induction rest as [|c rest IH]; intros n r trans Hr Ht.
  - exists []. split; [reflexivity|]. split; constructor.
  - cbn [enumerate_from ref_run]. unfold ref_step.
    destruct (lookup_lt_is_Some_2 r 0) as [r0 H0]; [lia|]. rewrite H0. simpl.
    edestruct (ref_inner_some allow) as (r' & t' & -> & H1 & H2);
      [|rewrite length_insert; lia|lia|].
    { lia. }
    simpl. rewrite length_insert in H1.
    destruct (IH (S n) r' t' ltac:(lia) ltac:(lia)) as (l & -> & Hm). simpl.
    destruct (scan_rows m 0 r') as [d|] eqn:Ed.
    + eexists. split; [reflexivity|]. apply scan_rows_range in Ed.
      apply matches_in_order_cons; simpl; try lia.
      replace (n + S (length rest) - S n)%nat with (length rest) by lia. exact Hm.
    + eexists. split; [reflexivity|]. simpl length. now apply matches_in_order_skip.
Qed.

(** [vec![!1usize; k + 1]]: the addition and the allocation panic
    exactly when the [k + 1] words do not fit in [isize::MAX] bytes *)
Lemma rows_alloc {A} k (f : list Z -> option A) :
  (n ← usize_add k 1; r ← vec_from_elem (wnot 1) n; f r) =
  if (8 * (Z.of_nat k + 1) <=? isize_max)%Z then f (replicate (k + 1) (wnot 1)) else None.
Proof.
  unfold usize_add, vec_from_elem. rewrite usize_max_eq, isize_max_eq.
  destruct (Z.leb_spec (Z.of_nat k + Z.of_nat 1) 18446744073709551615);
    destruct (Z.leb_spec (8 * (Z.of_nat k + 1)) 9223372036854775807); simpl.
  - rewrite Nat2Z.inj_add. simpl.
    rewrite (proj2 (Z.leb_le (8 * (Z.of_nat k + 1)) _)) by lia. reflexivity.
  - rewrite Nat2Z.inj_add. simpl.
    rewrite (proj2 (Z.leb_gt (8 * (Z.of_nat k + 1)) _)) by lia. reflexivity.
  - lia.
  - reflexivity.
Qed.

(** [bitap_reference] of [src/src/reference.rs] (behind [levenshtein] and
    [damerau_levenshtein]) on a pattern of 1 to [W - 1] chars: with
    [max_edit_distance <= 2] it never panics and reports at most one match
    per position, in strictly ascending order of [end], with distance at
    most [max_edit_distance]; with [max_edit_distance >= 3] it panics on
    any non-empty text: on the first char, because [trans] has two
    elements, when the allocation of [r] has not already panicked. *)
Theorem reference_rs_distance_limit (p t : list Z) (k : nat) (allow : bool) :
  (1 <= length p <= W - 1)%nat ->
  ((k <= 2)%nat -> exists l, bitap_reference t p k allow = Some l /\
     Forall (fun m => (end_ m < length t)%nat /\ (distance m <= k)%nat) l /\
     StronglySorted lt (map end_ l)) /\
  ((3 <= k)%nat -> t <> [] -> bitap_reference t p k allow = None).
Proof.
  intros Hl. unfold bitap_reference.
  nat_cases; try (unfold W in *; lia). cbv zeta iota.
  destruct (unicode_masks_from_some 0 p ∅) as [masks ->]; [lia|].
  cbn [mbind option_bind]. rewrite rows_alloc.
  unfold enumerate. split.
  - intros Hk.
    rewrite (proj2 (Z.leb_le _ _)) by (rewrite isize_max_eq; lia).
    destruct (ref_run_shape (length p) k allow masks t 0 (replicate (k + 1) (wnot 1))
                [wnot 1; Z.of_nat k]) as (l & -> & Hf & Hs);
      [rewrite length_replicate; lia|simpl; lia|].
    exists l. split; [reflexivity|]. split; [|exact Hs].
    eapply Forall_impl; [exact Hf|]. simpl. lia.
  - intros Hk Ht. destruct t as [|c t]; [congruence|].
    destruct (8 * (Z.of_nat k + 1) <=? isize_max)%Z; [|reflexivity].
    cbn [enumerate_from ref_run]. unfold ref_step.
    rewrite lookup_replicate_2 by lia. simpl.
    rewrite ref_inner_none; [reflexivity|lia|rewrite length_insert, length_replicate; lia
                            |reflexivity|lia].
Qed.

Lemma reference_rs_distance_limit_witness :
  (1 <= length [97] <= W - 1)%nat /\ (3 <= 3)%nat /\ [97] <> [] /\
  bitap_reference [97] [97] 3 false = None.
Proof.
  split; [simpl; unfold W; lia|]. split; [lia|]. split; [discriminate|].
  apply (reference_rs_distance_limit [97] [97] 3 false); [simpl; unfold W; lia|lia|discriminate].
Defined.
